(** * User repository with a cache-aside layer

    A shallow embedding of the user repository
    ([services/user-service/src/repository/user.repository.ts]), of the
    Redis client wrapper it calls ([config/redis.ts]) and of the user
    service built on top of it, together with the properties the
    specification states about them.

    The primary store is the MySQL table [users] of the init migration,
    reached through the Prisma client; the cache is a Redis instance
    holding the JSON text of a row under two keys.  Prisma, MySQL, Redis
    and bcrypt are collaborators whose code is not part of the
    repository: the sections [Collation] and [Primary store] below model
    what the repository relies on.

    The model is sequential: one repository call runs to completion
    before the next starts.  The primary store answers every call (the
    application refuses to start without it) and fails only on its
    constraints; a command sent to a connected Redis succeeds.  What a
    call reads from its surroundings (the clock, a fresh primary key, a
    salted digest) is an argument of the call. *)

From Stdlib Require Import ZArith Lia Ascii String List Sorting.Sorted.
From stdpp Require Import base option list strings gmap sorting.

Local Open Scope string_scope.
Local Open Scope Z_scope.
Local Open Scope list_scope.

(** ** Rows of the [users] table *)

(** The nine columns of [migration.sql]; instants are epoch
    milliseconds ([DATETIME(3)]). *)
Record user : Type := mkUser {
  id : string;
  first_name : string;
  last_name : string;
  email : string;
  password : string;
  is_active : bool;
  created_at : Z;
  updated_at : Z;
  deleted_at : option Z
}.

#[global] Instance user_eq_dec : EqDecision user.
Proof. solve_decision. Defined.

(** ** Collation

    The table is declared [COLLATE utf8mb4_unicode_ci]: every comparison
    the store performs on a [VARCHAR] column ([=], [LIKE], the unique
    indexes, [ORDER BY]) ignores letter case.  The model folds the ASCII
    letters, which is how that collation acts on them. *)

Definition fold_ascii (c : ascii) : ascii :=
  let n := nat_of_ascii c in
  if ((65 <=? n) && (n <=? 90))%nat then ascii_of_nat (n + 32) else c.

Fixpoint ckey (s : string) : string :=
  match s with
  | EmptyString => EmptyString
  | String c s' => String (fold_ascii c) (ckey s')
  end.

(** Equality of two column values, as the store sees it. *)
Definition ceq (a b : string) : bool := String.eqb (ckey a) (ckey b).

(** The [contains] filter on a column: [q] occurs somewhere in [s]. *)
Fixpoint infix_at (q s : string) : bool :=
  String.prefix q s ||
  match s with
  | EmptyString => false
  | String _ s' => infix_at q s'
  end.

Definition contains (q s : string) : bool := infix_at (ckey q) (ckey s).

(** ** Primary store

    The table content is the list of its rows, in insertion order.  A
    Prisma call either returns or throws a known request error; the two
    codes that matter are P2002 (unique constraint failed) and P2025
    (record to update or delete not found). *)

Inductive prisma_error : Type := P2002 | P2025 | PValidation.

#[global] Instance prisma_error_eq_dec : EqDecision prisma_error.
Proof. solve_decision. Defined.

Inductive prisma_result (A : Type) : Type :=
| PReturn (a : A)
| PThrow (e : prisma_error).
Arguments PReturn {A} a.
Arguments PThrow {A} e.

(** [user.findUnique({ where: { id, deleted_at: null } })]. *)
Definition findUnique_by_id (i : string) (rows : list user) : option user :=
  List.find (fun r => ceq (id r) i && bool_decide (deleted_at r = None)) rows.

(** [user.findUnique({ where: { email, deleted_at: null } })]. *)
Definition findUnique_by_email (e : string) (rows : list user) : option user :=
  List.find (fun r => ceq (email r) e && bool_decide (deleted_at r = None)) rows.

(** The two unique indexes of the migration, [PRIMARY KEY (id)] and
    [UNIQUE INDEX users_email_key (email)]: they range over every row of
    the table, whatever its [deleted_at]. *)
Definition violates_unique (r : user) (rows : list user) : bool :=
  existsb (fun x => ceq (id x) (id r) || ceq (email x) (email r)) rows.

(** [user.create({ data })]: the insert is refused with P2002 when one of
    the unique indexes already holds the value. *)
Definition prisma_create (r : user) (rows : list user)
  : prisma_result (list user) :=
  if violates_unique r rows then PThrow P2002 else PReturn (rows ++ [r]).

(** The [data] argument of [user.update]: the columns the repository ever
    writes.  An absent ([undefined]) property leaves the column alone. *)
Record userUpdateInput : Type := mkUpdateInput {
  set_first_name : option string;
  set_last_name : option string;
  set_email : option string;
  set_is_active : option bool;
  set_deleted_at : option Z
}.

(** Modelled from the spec: the Prisma schema file is not among the
    sources; the migration declares [updated_at] as [NOT NULL] without a
    default and no caller ever supplies it, and the specification says
    [updated_at] is "refreshed on every mutation", so every
    [user.update] stamps it with the time of the call. *)
Definition apply_update (now : Z) (d : userUpdateInput) (r : user) : user :=
  {| id := id r;
     first_name := default (first_name r) (set_first_name d);
     last_name := default (last_name r) (set_last_name d);
     email := default (email r) (set_email d);
     password := password r;
     is_active := default (is_active r) (set_is_active d);
     created_at := created_at r;
     updated_at := now;
     deleted_at := match set_deleted_at d with
                   | Some t => Some t
                   | None => deleted_at r
                   end |}.

(** [user.update({ where: { id }, data })].  The row is selected by its
    primary key alone; writing [email] is refused with P2002 when another
    row owns the value. *)
Definition prisma_update (now : Z) (i : string) (d : userUpdateInput)
    (rows : list user) : prisma_result (user * list user) :=
  match List.find (fun r => ceq (id r) i) rows with
  | None => PThrow P2025
  | Some r =>
      let r' := apply_update now d r in
      let clash :=
        match set_email d with
        | Some e => existsb (fun x => negb (ceq (id x) i) && ceq (email x) e) rows
        | None => false
        end in
      if clash then PThrow P2002
      else PReturn (r', List.map (fun x => if ceq (id x) i then r' else x) rows)
  end.

(** [user.delete({ where: { id } })]. *)
Definition prisma_delete (i : string) (rows : list user)
  : prisma_result (list user) :=
  match List.find (fun r => ceq (id r) i) rows with
  | None => PThrow P2025
  | Some _ => PReturn (List.filter (fun x => negb (ceq (id x) i)) rows)
  end.

(** *** Listing

    [sort_by] is typed [keyof user]: any of the nine columns. *)
Inductive column : Type :=
| Cid | Cfirst_name | Clast_name | Cemail | Cpassword
| Cis_active | Ccreated_at | Cupdated_at | Cdeleted_at.

Inductive order : Type := asc | desc.

(** [ORDER BY col ASC] on two rows: text under the collation, booleans
    false first, instants by value, NULL first. *)
Definition col_leb (c : column) (a b : user) : bool :=
  match c with
  | Cid => String.leb (ckey (id a)) (ckey (id b))
  | Cfirst_name => String.leb (ckey (first_name a)) (ckey (first_name b))
  | Clast_name => String.leb (ckey (last_name a)) (ckey (last_name b))
  | Cemail => String.leb (ckey (email a)) (ckey (email b))
  | Cpassword => String.leb (ckey (password a)) (ckey (password b))
  | Cis_active => implb (is_active a) (is_active b)
  | Ccreated_at => created_at a <=? created_at b
  | Cupdated_at => updated_at a <=? updated_at b
  | Cdeleted_at =>
      match deleted_at a, deleted_at b with
      | None, _ => true
      | Some _, None => false
      | Some x, Some y => x <=? y
      end
  end.

Definition order_leb (c : column) (o : order) (a b : user) : bool :=
  match o with
  | asc => col_leb c a b
  | desc => col_leb c b a
  end.

Definition order_le (c : column) (o : order) : relation user :=
  fun a b => order_leb c o a b = true.

#[global] Instance order_le_dec c o : RelDecision (order_le c o).
Proof. intros a b. unfold order_le. apply _. Defined.

(** The [where] argument of [findMany] and [count]:
    [{ deleted_at: null, OR: [{first_name: {contains: q}}, ...] }], the
    [OR] being present only for a truthy [q] (the empty string is
    falsy). *)
Definition where_input (q : option string) (r : user) : bool :=
  bool_decide (deleted_at r = None) &&
  match q with
  | Some q' =>
      if String.eqb q' "" then true
      else contains q' (first_name r) || contains q' (last_name r)
           || contains q' (email r)
  | None => true
  end.

(** The rows a [where] selects, in the requested order.  Rows that
    compare equal come in an order the store does not specify, and that
    may differ from one query to the next; the model takes the one of a
    merge sort, so properties that relate two queries are stated for
    rows that do not tie. *)
Definition selected (q : option string) (c : column) (o : order)
    (rows : list user) : list user :=
  merge_sort (order_le c o) (List.filter (where_input q) rows).

(** [user.findMany({ where, orderBy, skip, take })].  Prisma rejects a
    negative [skip]; a negative [take] counts from the end of the list. *)
Definition prisma_findMany (q : option string) (c : column) (o : order)
    (skip take : Z) (rows : list user) : prisma_result (list user) :=
  if skip <? 0 then PThrow PValidation
  else
    let l := selected q c o rows in
    if 0 <=? take then
      PReturn (firstn (Z.to_nat take) (skipn (Z.to_nat skip) l))
    else
      PReturn (rev (firstn (Z.to_nat (- take)) (skipn (Z.to_nat skip) (rev l)))).

(** [user.count({ where })]. *)
Definition prisma_count (q : option string) (rows : list user) : Z :=
  Z.of_nat (length (List.filter (where_input q) rows)).

(** ** Errors, state and the operation monad *)

(** What an awaited call can throw: the three application errors of
    [@/types/errors] the repository raises, or a Prisma request error. *)
Inductive exn : Type :=
| NotFoundError
| ConflictError
| DatabaseError
| PrismaClientError (e : prisma_error).

#[global] Instance exn_eq_dec : EqDecision exn.
Proof. solve_decision. Defined.

(** The two stores and the connection flag of the Redis client
    ([RedisClient.isConnected], with a client object present).  A cache
    value is the JSON text of a row; serialising then parsing gives the
    columns back, the timestamps as ISO strings for the same instants.
    The model keeps the row by value.  A command of a ready client
    always succeeds in the model: Redis failing is the connection flag
    going down between calls.  Expiry after the TTL only removes entries and is not
    modelled. *)
Record state : Type := mkState {
  rows : list user;
  cache : gmap string user;
  isConnected : bool
}.

Inductive outcome (A : Type) : Type :=
| Return (a : A)
| Throw (e : exn).
Arguments Return {A} a.
Arguments Throw {A} e.

Definition M (A : Type) : Type := state -> outcome A * state.

Definition ret {A} (a : A) : M A := fun s => (Return a, s).
Definition throw {A} (e : exn) : M A := fun s => (Throw e, s).
Definition bind {A B} (m : M A) (k : A -> M B) : M B :=
  fun s => match m s with
           | (Return a, s') => k a s'
           | (Throw e, s') => (Throw e, s')
           end.
(** [try { m } catch (error) { h error }]. *)
Definition try_catch {A} (m : M A) (h : exn -> M A) : M A :=
  fun s => match m s with
           | (Return a, s') => (Return a, s')
           | (Throw e, s') => h e s'
           end.

Notation "x <- m ;; k" := (bind m (fun x => k))
  (at level 100, m at next level, right associativity).
Notation "m ;;; k" := (bind m (fun _ => k))
  (at level 100, right associativity).

(** A Prisma call on the table: the new table content is committed only
    when the call returns. *)
Definition prisma {A} (f : list user -> prisma_result (A * list user)) : M A :=
  fun s => match f (rows s) with
           | PReturn (a, rows') =>
               (Return a, {| rows := rows'; cache := cache s;
                             isConnected := isConnected s |})
           | PThrow e => (Throw (PrismaClientError e), s)
           end.

Definition prisma_read {A} (f : list user -> A) : M A :=
  fun s => (Return (f (rows s)), s).

Definition prisma_query {A} (f : list user -> prisma_result A) : M A :=
  fun s => match f (rows s) with
           | PReturn a => (Return a, s)
           | PThrow e => (Throw (PrismaClientError e), s)
           end.

(** ** The Redis client wrapper ([RedisClient] of [config/redis.ts]) *)

Module redisClient.

(** The handlers [connect] installs: the ['connect'] event sets the
    flag, the ['error'] and ['disconnect'] events clear it.  They fire
    between repository calls, not within them. *)
Definition on_connect (s : state) : state :=
  {| rows := rows s; cache := cache s; isConnected := true |}.

Definition on_error (s : state) : state :=
  {| rows := rows s; cache := cache s; isConnected := false |}.

Definition isReady : M bool := fun s => (Return (isConnected s), s).

Definition set (key : string) (value : user) : M unit :=
  ready <- isReady ;;
  if negb ready then ret tt
  else fun s => (Return tt, {| rows := rows s;
                               cache := <[key := value]> (cache s);
                               isConnected := isConnected s |}).

Definition get (key : string) : M (option user) :=
  ready <- isReady ;;
  if negb ready then ret None
  else fun s => (Return (cache s !! key), s).

Definition del (key : string) : M unit :=
  ready <- isReady ;;
  if negb ready then ret tt
  else fun s => (Return tt, {| rows := rows s;
                               cache := delete key (cache s);
                               isConnected := isConnected s |}).

End redisClient.

(** ** The repository ([UserRepositoryPrisma]) *)

Inductive key_type : Type := KId | KEmail.

Definition key_type_name (t : key_type) : string :=
  match t with KId => "id" | KEmail => "email" end.

Definition CACHE_PREFIX : string := "user".

Definition getCacheKey (identifier : string) (t : key_type) : string :=
  CACHE_PREFIX +:+ ":" +:+ key_type_name t +:+ ":" +:+ identifier.

Definition setCacheUser (u : user) : M unit :=
  ready <- redisClient.isReady ;;
  if negb ready then ret tt
  else
    redisClient.set (getCacheKey (id u) KId) u ;;;
    redisClient.set (getCacheKey (email u) KEmail) u.

Definition getCacheUser (identifier : string) (t : key_type) : M (option user) :=
  ready <- redisClient.isReady ;;
  if negb ready then ret None
  else
    try_catch (redisClient.get (getCacheKey identifier t))
              (fun _ => ret None).

Definition invalidateCacheUser (u : user) : M unit :=
  ready <- redisClient.isReady ;;
  if negb ready then ret tt
  else
    redisClient.del (getCacheKey (id u) KId) ;;;
    redisClient.del (getCacheKey (email u) KEmail).

Definition findById (i : string) : M (option user) :=
  try_catch
    (cached <- getCacheUser i KId ;;
     match cached with
     | Some u => ret (Some u)
     | None =>
         found <- prisma_read (findUnique_by_id i) ;;
         match found with
         | Some u => setCacheUser u ;;; ret (Some u)
         | None => ret None
         end
     end)
    (fun _ => throw DatabaseError).

Definition findByEmail (e : string) : M (option user) :=
  try_catch
    (cached <- getCacheUser e KEmail ;;
     match cached with
     | Some u => ret (Some u)
     | None =>
         found <- prisma_read (findUnique_by_email e) ;;
         match found with
         | Some u => setCacheUser u ;;; ret (Some u)
         | None => ret None
         end
     end)
    (fun _ => throw DatabaseError).

Record CreateUserRequest : Type := mkCreate {
  new_first_name : string;
  new_last_name : string;
  new_email : string;
  new_password : string
}.

(** What the surroundings contribute to one [create]: the clock reading
    behind the column defaults, the primary key Prisma generates, and the
    digest [bcrypt.hash(data.password, 12)] returns (salted, hence not a
    function of the password). *)
Record create_env : Type := mkEnv {
  env_now : Z;
  env_uuid : string;
  env_digest : string
}.

(** The row [user.create] inserts: the request with the digest in place
    of the password, and the column defaults of the migration
    ([is_active] true, [created_at] now, [deleted_at] NULL). *)
Definition new_row (env : create_env) (data : CreateUserRequest) : user :=
  {| id := env_uuid env;
     first_name := new_first_name data;
     last_name := new_last_name data;
     email := new_email data;
     password := env_digest env;
     is_active := true;
     created_at := env_now env;
     updated_at := env_now env;
     deleted_at := None |}.

(** The part of [create] that follows a passed pre-check: hash, insert,
    populate the cache. *)
Definition create_insert (env : create_env) (data : CreateUserRequest) : M user :=
  let u := new_row env data in
  prisma (fun rs => match prisma_create u rs with
                    | PReturn rs' => PReturn (u, rs')
                    | PThrow e => PThrow e
                    end) ;;;
  setCacheUser u ;;;
  ret u.

(** The [catch] block of [create]. *)
Definition create_catch (error : exn) : M user :=
  match error with
  | ConflictError => throw error
  | _ => throw DatabaseError
  end.

Definition create (env : create_env) (data : CreateUserRequest) : M user :=
  try_catch
    (existingUser <- findByEmail (new_email data) ;;
     match existingUser with
     | Some _ => throw ConflictError
     | None => create_insert env data
     end)
    create_catch.

Record UpdateUserRequest : Type := mkUpdate {
  upd_first_name : option string;
  upd_last_name : option string;
  upd_email : option string;
  upd_is_active : option bool
}.

Definition update_data (data : UpdateUserRequest) : userUpdateInput :=
  {| set_first_name := upd_first_name data;
     set_last_name := upd_last_name data;
     set_email := upd_email data;
     set_is_active := upd_is_active data;
     set_deleted_at := None |}.

(** The uniqueness check of [update]:
    [if (data.email && data.email !== existingUser.email)], the empty
    string being falsy. *)
Definition update_check (data : UpdateUserRequest) (existing : user) : M unit :=
  match upd_email data with
  | Some e =>
      if negb (String.eqb e "") && negb (String.eqb e (email existing))
      then
        userWithEmail <- findByEmail e ;;
        match userWithEmail with
        | Some _ => throw ConflictError
        | None => ret tt
        end
      else ret tt
  | None => ret tt
  end.

(** Invalidate, write, re-populate: the end of [update]. *)
Definition update_write (now : Z) (i : string) (data : UpdateUserRequest)
    (existing : user) : M user :=
  invalidateCacheUser existing ;;;
  updatedUser <- prisma (prisma_update now i (update_data data)) ;;
  setCacheUser updatedUser ;;;
  ret updatedUser.

Definition update (now : Z) (i : string) (data : UpdateUserRequest) : M user :=
  try_catch
    (existingUser <- findById i ;;
     match existingUser with
     | None => throw NotFoundError
     | Some existing =>
         update_check data existing ;;;
         update_write now i data existing
     end)
    (fun error =>
       match error with
       | NotFoundError | ConflictError => throw error
       | _ => throw DatabaseError
       end).

Definition delete (i : string) : M unit :=
  try_catch
    (found <- findById i ;;
     match found with
     | None => throw NotFoundError
     | Some u =>
         invalidateCacheUser u ;;;
         prisma (fun rs => match prisma_delete i rs with
                           | PReturn rs' => PReturn (tt, rs')
                           | PThrow e => PThrow e
                           end)
     end)
    (fun error =>
       match error with
       | NotFoundError => throw error
       | _ => throw DatabaseError
       end).

Definition soft_delete_data (now : Z) : userUpdateInput :=
  {| set_first_name := None; set_last_name := None; set_email := None;
     set_is_active := None; set_deleted_at := Some now |}.

Definition softDelete (now : Z) (i : string) : M unit :=
  try_catch
    (found <- findById i ;;
     match found with
     | None => throw NotFoundError
     | Some u =>
         invalidateCacheUser u ;;;
         prisma (prisma_update now i (soft_delete_data now)) ;;;
         ret tt
     end)
    (fun error =>
       match error with
       | NotFoundError => throw error
       | _ => throw DatabaseError
       end).

Record UserSearchParams : Type := mkParams {
  page : option Z;
  limit : option Z;
  sort_by : option column;
  sort_order : option order;
  q : option string
}.

Definition findMany (params : UserSearchParams) : M (list user * Z) :=
  try_catch
    (let page := default 1 (page params) in
     let limit := default 10 (limit params) in
     let sort_by := default Ccreated_at (sort_by params) in
     let sort_order := default desc (sort_order params) in
     let skip := (page - 1) * limit in
     users <- prisma_query
                (prisma_findMany (q params) sort_by sort_order skip limit) ;;
     total <- prisma_read (prisma_count (q params)) ;;
     ret (users, total))
    (fun _ => throw DatabaseError).

(** ** The service ([UserService]) *)

(** A row as the JavaScript object Prisma hands to the service: one
    property per column, the timestamps as Dates.  A row served from
    the cache is the [JSON.parse] of its text, where the timestamps are
    ISO strings for the same instants; the model keeps rows by value
    and does not tell the two apart. *)
Inductive jsvalue : Type :=
| JString (s : string)
| JBool (b : bool)
| JDate (t : Z)
| JNull.

Definition user_object (u : user) : gmap string jsvalue :=
  list_to_map
    [ ("id", JString (id u));
      ("first_name", JString (first_name u));
      ("last_name", JString (last_name u));
      ("email", JString (email u));
      ("password", JString (password u));
      ("is_active", JBool (is_active u));
      ("created_at", JDate (created_at u));
      ("updated_at", JDate (updated_at u));
      ("deleted_at", match deleted_at u with
                     | Some t => JDate t
                     | None => JNull
                     end) ].

(** [const { password, deleted_at, ...userResponse } = user]: the rest
    object has every property but the two named ones. *)
Definition mapUserToResponse (u : user) : gmap string jsvalue :=
  base.delete "deleted_at" (base.delete "password" (user_object u)).

Definition createUser (env : create_env) (data : CreateUserRequest)
  : M (gmap string jsvalue) :=
  u <- create env data ;;
  ret (mapUserToResponse u).

Definition getUserById (i : string) : M (gmap string jsvalue) :=
  found <- findById i ;;
  match found with
  | None => throw NotFoundError
  | Some u => ret (mapUserToResponse u)
  end.

Definition getUserByEmail (e : string) : M (option (gmap string jsvalue)) :=
  found <- findByEmail e ;;
  ret (match found with
       | Some u => Some (mapUserToResponse u)
       | None => None
       end).

(** A JavaScript number that may come out of [Math.ceil(total / limit)]:
    an integer, or what division by zero gives. *)
Inductive jsnum : Type := Num (z : Z) | Infinity | NaN.

(** [Math.ceil(total / limit)] for a row count [total]. *)
Definition ceil_div (total limit : Z) : jsnum :=
  if limit =? 0 then (if total =? 0 then NaN else Infinity)
  else Num (- ((- total) / limit)).

(** [page < totalPages]. *)
Definition js_lt (a : Z) (b : jsnum) : bool :=
  match b with
  | Num z => a <? z
  | Infinity => true
  | NaN => false
  end.

Record Pagination : Type := mkPagination {
  pg_page : Z;
  pg_limit : Z;
  total : Z;
  total_pages : jsnum;
  has_next : bool;
  has_prev : bool
}.

Record PaginatedResponse : Type := mkPaginated {
  data : list (gmap string jsvalue);
  pagination : Pagination
}.

Definition getUsers (params : UserSearchParams) : M PaginatedResponse :=
  let page := default 1 (page params) in
  let limit := default 10 (limit params) in
  r <- findMany params ;;
  let '(users, total) := r in
  let data := List.map mapUserToResponse users in
  let totalPages := ceil_div total limit in
  let hasNext := js_lt page totalPages in
  let hasPrev := 1 <? page in
  ret {| data := data;
         pagination := {| pg_page := page; pg_limit := limit; total := total;
                          total_pages := totalPages;
                          has_next := hasNext; has_prev := hasPrev |} |}.

Definition updateUser (now : Z) (i : string) (data : UpdateUserRequest)
  : M (gmap string jsvalue) :=
  updatedUser <- update now i data ;;
  ret (mapUserToResponse updatedUser).

Definition deleteUser (now : Z) (i : string) (soft : bool) : M unit :=
  if soft then softDelete now i else delete i.

Definition searchUsers (query : string) (params : UserSearchParams)
  : M PaginatedResponse :=
  getUsers {| page := page params; limit := limit params;
              sort_by := sort_by params; sort_order := sort_order params;
              q := Some query |}.

Definition set_active (b : bool) : UpdateUserRequest :=
  {| upd_first_name := None; upd_last_name := None; upd_email := None;
     upd_is_active := Some b |}.

Definition activateUser (now : Z) (i : string) : M (gmap string jsvalue) :=
  updatedUser <- update now i (set_active true) ;;
  ret (mapUserToResponse updatedUser).

Definition deactivateUser (now : Z) (i : string) : M (gmap string jsvalue) :=
  updatedUser <- update now i (set_active false) ;;
  ret (mapUserToResponse updatedUser).

(** ** The delete handler of the controller ([UserController.deleteUser]) *)

(** A value of [req.query]: absent, a string, or something else (an
    array or a nested object). *)
Inductive query_value : Type :=
| QAbsent
| QString (s : string)
| QOther.

(** [permanent !== 'true']. *)
Definition soft_flag (permanent : query_value) : bool :=
  match permanent with
  | QString s => negb (String.eqb s "true")
  | _ => true
  end.

(** The handler resolves to the message of its success envelope; an
    error of the service is passed on. *)
Definition controller_deleteUser (now : Z) (i : string)
    (permanent : query_value) : M string :=
  let soft := soft_flag permanent in
  deleteUser now i soft ;;;
  ret (if soft then "User deactivated successfully"
       else "User deleted permanently").

(** ** The seed script ([prisma/seed.ts]) *)

(** [prisma.user.findUnique({ where: { email } })]: no filter on
    [deleted_at]. *)
Definition findUnique_any_email (e : string) (rs : list user) : option user :=
  List.find (fun r => ceq (email r) e) rs.

Definition admin_row (env : create_env) : user :=
  {| id := env_uuid env;
     first_name := "Admin";
     last_name := "User";
     email := "admin@example.com";
     password := env_digest env;
     is_active := true;
     created_at := env_now env;
     updated_at := env_now env;
     deleted_at := None |}.

(** [main]: the table it leaves and the count it prints. *)
Definition seed_main (env : create_env) (rs : list user)
  : prisma_result (list user * Z) :=
  match findUnique_any_email "admin@example.com" rs with
  | Some _ => PReturn (rs, Z.of_nat (length rs))
  | None =>
      match prisma_create (admin_row env) rs with
      | PReturn rs' => PReturn (rs', Z.of_nat (length rs'))
      | PThrow e => PThrow e
      end
  end.

(** ** Cache key builder ([CacheKeyBuilder]) *)

Module CacheKeyBuilder.

Definition PROJECT_PREFIX : string := "boiler".

Definition build (service type identifier : string) : string :=
  PROJECT_PREFIX +:+ ":" +:+ service +:+ ":" +:+ type +:+ ":" +:+ identifier.

Definition user (t : key_type) (identifier : string) : string :=
  build "user" (key_type_name t) identifier.

Definition session (sessionId : string) : string :=
  build "session" "id" sessionId.

Inductive token_type : Type := reset | verify | access.

Definition token_type_name (t : token_type) : string :=
  match t with reset => "reset" | verify => "verify" | access => "access" end.

Definition token (t : token_type) (identifier : string) : string :=
  build "token" (token_type_name t) identifier.

End CacheKeyBuilder.

(** ** The validation middleware ([validate]) *)

(** An issue of a [ZodError]: the path to the value (numbers already
    rendered) and the message. *)
Record zod_issue : Type := mkIssue {
  issue_path : list string;
  issue_message : string
}.

(** [path.join('.')]. *)
Definition join_path (path : list string) : string :=
  match path with
  | [] => ""
  | x :: rest => fold_left (fun acc y => acc +:+ "." +:+ y) rest x
  end.

(** The properties an object literal inherits from [Object.prototype]:
    [errors[path]] is truthy for these before anything is stored. *)
Definition inherited_properties : list string :=
  [ "constructor"; "__proto__"; "hasOwnProperty"; "isPrototypeOf";
    "propertyIsEnumerable"; "toLocaleString"; "toString"; "valueOf";
    "__defineGetter__"; "__defineSetter__"; "__lookupGetter__";
    "__lookupSetter__" ].

(** One turn of the [forEach]: [None] when [push] is called on a value
    that is not an array, which throws. *)
Definition add_issue (errors : gmap string (list string)) (err : zod_issue)
  : option (gmap string (list string)) :=
  let path := join_path (issue_path err) in
  match errors !! path with
  | Some msgs => Some (<[path := msgs ++ [issue_message err]]> errors)
  | None =>
      if bool_decide (In path inherited_properties) then None
      else Some (<[path := [issue_message err]]> errors)
  end.

Fixpoint collect_issues (errors : gmap string (list string))
    (issues : list zod_issue) : option (gmap string (list string)) :=
  match issues with
  | [] => Some errors
  | err :: rest =>
      match add_issue errors err with
      | Some errors' => collect_issues errors' rest
      | None => None
      end
  end.

(** The [errors] record of the 400 response. *)
Definition validation_errors (issues : list zod_issue)
  : option (gmap string (list string)) :=
  collect_issues ∅ issues.

(** ** The authentication middleware *)

(** [s.split(sep)] for a separator of one character: the pieces between
    the separators, at least one. *)
Fixpoint split_pieces (sep : ascii) (s : string) : string * list string :=
  match s with
  | EmptyString => (EmptyString, [])
  | String c s' =>
      let (piece, rest) := split_pieces sep s' in
      if Ascii.eqb c sep then (EmptyString, piece :: rest)
      else (String c piece, rest)
  end.

Definition js_split (sep : ascii) (s : string) : list string :=
  let (piece, rest) := split_pieces sep s in piece :: rest.

(** The two error classes the middleware throws. *)
Inductive auth_error : Type := UnauthorizedError | ValidationError.

(** What [jwt.verify] does with a token: it returns the payload or
    throws, and the thrown error is or is not an instance of the two
    classes the middleware tests for. *)
Inductive jwt_verdict : Type :=
| Verified (payload : string)
| VerifyThrows (isJsonWebTokenError isTokenExpiredError : bool).

(** The collaborators of the middleware: the decoding
    [Buffer.from(_, 'base64').toString('ascii')], [jwt.verify] with the
    configured secret, and the [statusCode] of the two error classes
    (declared in a file that is not among the sources). *)
Record auth_env : Type := mkAuthEnv {
  decode_base64 : string -> string;
  jwt_verify : string -> jwt_verdict;
  statusCode : auth_error -> Z
}.

(** What the middleware attaches to the request as [req.user]. *)
Inductive req_user : Type :=
| BasicUser (username password : string)
| BearerUser (payload : string).

(** The middleware either calls [next], having set [req.user] or not,
    or answers through [ResponseHandler.error] with a message and a
    status. *)
Inductive auth_outcome : Type :=
| Next (user : option req_user)
| Responded (message : string) (status : Z).

Definition basicAuthMiddleware (env : auth_env) (authHeader : option string)
  : auth_outcome :=
  match authHeader with
  | None =>
      Responded "Missing Authorization header" (statusCode env UnauthorizedError)
  | Some h =>
      if String.eqb h "" then
        Responded "Missing Authorization header"
                  (statusCode env UnauthorizedError)
      else if negb (String.prefix "Basic " h) then
        Responded "Invalid authorization format. Expected Basic authentication"
                  (statusCode env UnauthorizedError)
      else
        match nth_error (js_split " " h) 1 with
        | None | Some EmptyString =>
            Responded "Missing credentials in Basic authentication"
                      (statusCode env UnauthorizedError)
        | Some base64Credentials =>
            let credentials := decode_base64 env base64Credentials in
            let parts := js_split ":" credentials in
            match nth_error parts 0, nth_error parts 1 with
            | Some username, Some password =>
                if String.eqb username "" || String.eqb password "" then
                  Responded "Username and password are required"
                            (statusCode env ValidationError)
                else Next (Some (BasicUser username password))
            | _, _ =>
                Responded "Username and password are required"
                          (statusCode env ValidationError)
            end
        end
  end.

Definition bearerAuthMiddleware (env : auth_env) (authHeader : option string)
  : auth_outcome :=
  match authHeader with
  | None =>
      Responded "Missing Authorization header" (statusCode env UnauthorizedError)
  | Some h =>
      if String.eqb h "" then
        Responded "Missing Authorization header"
                  (statusCode env UnauthorizedError)
      else if negb (String.prefix "Bearer " h) then
        Responded "Invalid authorization format. Expected Bearer token"
                  (statusCode env UnauthorizedError)
      else
        match nth_error (js_split " " h) 1 with
        | None | Some EmptyString =>
            Responded "Missing token in Bearer authentication"
                      (statusCode env UnauthorizedError)
        | Some token =>
            match jwt_verify env token with
            | Verified payload => Next (Some (BearerUser payload))
            | VerifyThrows isJwt isExpired =>
                if isJwt then Responded "Invalid token" 401
                else if isExpired then Responded "Token expired" 401
                else Responded "Authentication failed" 401
            end
        end
  end.

Definition flexibleAuthMiddleware (env : auth_env) (authHeader : option string)
  : auth_outcome :=
  match authHeader with
  | None => Responded "Missing Authorization header" 401
  | Some h =>
      if String.eqb h "" then Responded "Missing Authorization header" 401
      else if String.prefix "Bearer " h then bearerAuthMiddleware env authHeader
      else if String.prefix "Basic " h then basicAuthMiddleware env authHeader
      else
        Responded
          "Invalid authorization format. Expected Basic or Bearer authentication"
          401
  end.

Definition optionalAuthMiddleware (env : auth_env) (authHeader : option string)
  : auth_outcome :=
  match authHeader with
  | None => Next None
  | Some h =>
      if String.eqb h "" then Next None
      else flexibleAuthMiddleware env authHeader
  end.

(** * Vocabulary of the properties *)

(** ** Unique keys *)

(** The uniqueness the two indexes of the table maintain. *)
Definition kid (r : user) : string := ckey (id r).
Definition kem (r : user) : string := ckey (email r).

Definition store_ok (rs : list user) : Prop :=
  NoDup (List.map kid rs) /\ NoDup (List.map kem rs).

(** ** The effect of the cache helpers on the state *)

Definition set_cache (c : gmap string user) (s : state) : state :=
  {| rows := rows s; cache := c; isConnected := isConnected s |}.

Definition set_rows (rs : list user) (s : state) : state :=
  {| rows := rs; cache := cache s; isConnected := isConnected s |}.

Definition cache_put (u : user) (s : state) : state :=
  if isConnected s then
    set_cache (<[getCacheKey (email u) KEmail := u]>
                 (<[getCacheKey (id u) KId := u]> (cache s))) s
  else s.

Definition cache_drop (u : user) (s : state) : state :=
  if isConnected s then
    set_cache (base.delete (getCacheKey (email u) KEmail)
                 (base.delete (getCacheKey (id u) KId) (cache s))) s
  else s.

Definition cache_look (identifier : string) (t : key_type) (s : state)
  : option user :=
  if isConnected s then cache s !! getCacheKey identifier t else None.

(** ** The invariant: unique keys in the table, a cache that mirrors it

    Every entry a connected cache answers with is a row of the table
    that is not soft-deleted, filed under one of its own two keys.  The
    repository keeps this as long as the connection flag stays what it
    is: the properties below are about such runs, the ones the
    specification describes ("connected once at process start"); see
    [connection_loss_breaks_mirror] for what a lost and regained
    connection does. *)
Definition coherent (s : state) : Prop :=
  isConnected s = true ->
  forall k v, cache s !! k = Some v ->
    In v (rows s) /\ deleted_at v = None /\
    (k = getCacheKey (id v) KId \/ k = getCacheKey (email v) KEmail).

Definition inv (s : state) : Prop := store_ok (rows s) /\ coherent s.

(** ** Point reads

    [reads s s'] : [s'] is [s] after some read-through population of the
    cache; the table and the connection flag are those of [s]. *)
Definition reads (s s' : state) : Prop :=
  rows s' = rows s /\ isConnected s' = isConnected s /\ inv s'.

(** The uniqueness check [update] runs before writing a new email. *)
Definition email_taken (d : UpdateUserRequest) (existing : user)
    (rs : list user) : bool :=
  match upd_email d with
  | Some e =>
      negb (String.eqb e "") && negb (String.eqb e (email existing))
      && bool_decide (is_Some (findUnique_by_email e rs))
  | None => false
  end.

(** ** The repository without its cache

  What each operation amounts to on the table alone: the outcome and
  the new table content.  This is the behaviour the specification
  asks the cache never to alter. *)
Module Store.

Definition create (env : create_env) (data : CreateUserRequest)
    (rs : list user) : outcome user * list user :=
  match findUnique_by_email (new_email data) rs with
  | Some _ => (Throw ConflictError, rs)
  | None =>
      match prisma_create (new_row env data) rs with
      | PReturn rs' => (Return (new_row env data), rs')
      | PThrow _ => (Throw DatabaseError, rs)
      end
  end.

Definition update (now : Z) (i : string) (d : UpdateUserRequest)
    (rs : list user) : outcome user * list user :=
  match findUnique_by_id i rs with
  | None => (Throw NotFoundError, rs)
  | Some existing =>
      if email_taken d existing rs then (Throw ConflictError, rs)
      else
        match prisma_update now i (update_data d) rs with
        | PReturn (u', rs') => (Return u', rs')
        | PThrow _ => (Throw DatabaseError, rs)
        end
  end.

Definition delete (i : string) (rs : list user) : outcome unit * list user :=
  match findUnique_by_id i rs with
  | None => (Throw NotFoundError, rs)
  | Some _ =>
      match prisma_delete i rs with
      | PReturn rs' => (Return tt, rs')
      | PThrow _ => (Throw DatabaseError, rs)
      end
  end.

Definition softDelete (now : Z) (i : string) (rs : list user)
  : outcome unit * list user :=
  match findUnique_by_id i rs with
  | None => (Throw NotFoundError, rs)
  | Some _ =>
      match prisma_update now i (soft_delete_data now) rs with
      | PReturn (_, rs') => (Return tt, rs')
      | PThrow _ => (Throw DatabaseError, rs)
      end
  end.

End Store.

(** [refines m f s]: from a state that satisfies the invariant, [m]
    returns what [f] computes on the table, leaves the table [f] leaves,
    and re-establishes the invariant. *)
Definition refines {A} (m : M A) (f : list user -> outcome A * list user)
    (s : state) : Prop :=
  exists s', m s = (fst (f (rows s)), s') /\
             rows s' = snd (f (rows s)) /\
             isConnected s' = isConnected s /\ inv s'.

(** ** Sequences of repository calls *)

(** A call of the repository, with its arguments. *)
Inductive call : Type :=
| Create (env : create_env) (data : CreateUserRequest)
| FindById (i : string)
| FindByEmail (e : string)
| FindMany (p : UserSearchParams)
| Update (now : Z) (i : string) (d : UpdateUserRequest)
| Delete (i : string)
| SoftDelete (now : Z) (i : string).

(** What a call resolves to. *)
Inductive answer : Type :=
| AUser (u : user)
| AFound (o : option user)
| APage (users : list user) (total : Z)
| ADone.

Definition exec (c : call) : M answer :=
  match c with
  | Create env data => u <- create env data ;; ret (AUser u)
  | FindById i => o <- findById i ;; ret (AFound o)
  | FindByEmail e => o <- findByEmail e ;; ret (AFound o)
  | FindMany p => r <- findMany p ;; ret (APage (fst r) (snd r))
  | Update now i d => u <- update now i d ;; ret (AUser u)
  | Delete i => delete i ;;; ret ADone
  | SoftDelete now i => softDelete now i ;;; ret ADone
  end.

(** The outcomes of the calls, in order, and the state they leave. *)
Fixpoint run (cs : list call) (s : state) : list (outcome answer) * state :=
  match cs with
  | [] => ([], s)
  | c :: cs' =>
      let (o, s1) := exec c s in
      let (os, s2) := run cs' s1 in
      (o :: os, s2)
  end.

Definition outcome_map {A B} (g : A -> B) (o : outcome A) : outcome B :=
  match o with
  | Return a => Return (g a)
  | Throw e => Throw e
  end.

(** ** Service responses *)

(** The values a settled call carries: one when it returned, none when
    it threw. *)
Definition returned {A} (o : outcome A) : list A :=
  match o with
  | Return a => [a]
  | Throw _ => []
  end.

(** An object without the two stripped properties. *)
Definition stripped (o : gmap string jsvalue) : Prop :=
  o !! "password" = None /\ o !! "deleted_at" = None.

(** ** Searching and hiding *)

(** [q] occurs in [s] when letter case is ignored. *)
Definition occurs_in (q s : string) : Prop :=
  exists pre post, ckey s = pre +:+ ckey q +:+ post.

(** The rows a search for [qs] is after. *)
Definition matches (qs : string) (r : user) : Prop :=
  deleted_at r = None /\
  (occurs_in qs (first_name r) \/ occurs_in qs (last_name r)
   \/ occurs_in qs (email r)).


(** ** Sample data *)

Definition ann : user :=
  mkUser "id-1" "Ann" "Lee" "ann@example.com" "digest-1" false 10 10 None.

Definition bob : user :=
  mkUser "id-2" "Bob" "Ray" "bob@example.com" "digest-2" true 20 25 (Some 25).

Definition two_rows : state := mkState [ann; bob] ∅ true.

Definition bob_again : CreateUserRequest :=
  mkCreate "Bob" "Ray" "bob@example.com" "Passw0rd".

Definition ann_again : CreateUserRequest :=
  mkCreate "Ann" "Lee" "ann@example.com" "Passw0rd".

Definition env3 : create_env := mkEnv 30 "id-3" "digest-3".

Definition move_ann : UpdateUserRequest :=
  mkUpdate None None (Some "ann@new.org") None.

Definition sample (t : Z) (tag : string) : user :=
  mkUser ("id-" +:+ tag) ("First-" +:+ tag) "Doe" (tag +:+ "@example.com")
         "digest" true t t None.

Definition twelve_rows : state :=
  mkState [ sample 1 "a"; sample 2 "b"; sample 3 "c"; sample 4 "d";
            sample 5 "e"; sample 6 "f"; sample 7 "g"; sample 8 "h";
            sample 9 "i"; sample 10 "j"; sample 11 "k"; sample 12 "l" ]
          ∅ true.

Definition page_two : UserSearchParams :=
  mkParams (Some 2) (Some 5) None None None.

Definition search_ann : UserSearchParams :=
  mkParams None None None None (Some "ANN").

(** ** What a call leaves alone *)

(** [keeps R m]: whatever the state, the state [m] leaves is related to
    it by [R]. *)
Definition keeps {A} (R : relation state) (m : M A) : Prop :=
  forall s, R s (snd (m s)).

(** The connection flag is not touched, and a cache that is not
    connected is not written. *)
Definition cache_respected : relation state :=
  fun s s' => isConnected s' = isConnected s /\
              (isConnected s = false -> cache s' = cache s).

(** The table is not written. *)
Definition same_rows : relation state := fun s s' => rows s' = rows s.

(** An outcome that, when it is an error, is one of [allowed]. *)
Definition throws_only {A} (allowed : list exn) (o : outcome A) : Prop :=
  match o with
  | Return _ => True
  | Throw e => In e allowed
  end.

(** The table a call leaves, computed on the table alone. *)
Definition store_step (c : call) (rs : list user) : list user :=
  match c with
  | Create env d => snd (Store.create env d rs)
  | Update now i d => snd (Store.update now i d rs)
  | Delete i => snd (Store.delete i rs)
  | SoftDelete now i => snd (Store.softDelete now i rs)
  | FindById _ | FindByEmail _ | FindMany _ => rs
  end.


(** Neither the id nor the email is carried by any row, live or not. *)
Definition fresh (i e : string) (rs : list user) : Prop :=
  forall x, In x rs -> ceq (id x) i = false /\ ceq (email x) e = false.

(** The rows of a settled [findMany], none when it threw. *)
Definition page_rows (o : outcome (list user * Z)) : list user :=
  match o with
  | Return (users, _) => users
  | Throw _ => []
  end.

(** The search parameters [p] with the page number replaced. *)
Definition with_page (p : UserSearchParams) (k : Z) : UserSearchParams :=
  {| page := Some k; limit := limit p; sort_by := sort_by p;
     sort_order := sort_order p; q := q p |}.

(** The character [c] occurs in [s]. *)
Fixpoint has_char (c : ascii) (s : string) : bool :=
  match s with
  | EmptyString => false
  | String x s' => Ascii.eqb x c || has_char c s'
  end.

(** The messages of the issues filed under the key [p], in order. *)
Definition messages_at (p : string) (issues : list zod_issue) : list string :=
  List.map issue_message
    (List.filter (fun i => String.eqb (join_path (issue_path i)) p) issues).

(** More sample data: a request for a user the table does not hold, two
    patches asking for an email that is taken, a second clock, and
    collaborators of the authentication middleware. *)
Definition cid_new : CreateUserRequest :=
  mkCreate "Cid" "Poe" "cid@example.com" "Passw0rd".



Definition env9 : create_env := mkEnv 90 "id-9" "digest-9".

Definition mixed_calls : list call :=
  [ Update 40 "id-2" move_ann; Delete "id-2"; Create env3 bob_again;
    FindByEmail "bob@example.com"; SoftDelete 50 "id-1"; Delete "id-1" ].

Definition basic_env : auth_env :=
  mkAuthEnv
    (fun c => if String.eqb c "YW5uOnNlY3JldDpleHRyYQ=="
              then "ann:secret:extra" else "")
    (fun _ => VerifyThrows true false)
    (fun _ => 401).

(** ** Runs during which the Redis connection comes and goes

    Between two repository calls the ['error'] (or ['disconnect'])
    handler of the client may clear the connection flag and the
    ['connect'] handler may set it again. *)
Inductive event : Type :=
| Call (c : call)
| Outage
| Reconnect.

Fixpoint play (es : list event) (s : state)
  : list (outcome answer) * state :=
  match es with
  | [] => ([], s)
  | Call c :: es' =>
      let (o, s1) := exec c s in
      let (os, s2) := play es' s1 in
      (o :: os, s2)
  | Outage :: es' => play es' (redisClient.on_error s)
  | Reconnect :: es' => play es' (redisClient.on_connect s)
  end.




(** * Properties *)

(** ** Collation and cache keys *)

Lemma ceq_true a b : ceq a b = true <-> ckey a = ckey b.
Proof. unfold ceq. apply String.eqb_eq. Qed.

Lemma ceq_false a b : ceq a b = false <-> ckey a <> ckey b.
Proof. unfold ceq. apply String.eqb_neq. Qed.

Lemma ceq_refl a : ceq a a = true.
Proof. apply ceq_true. reflexivity. Qed.


Lemma ckey_length s : String.length (ckey s) = String.length s.
Proof. induction s as [|c s IH]; simpl; congruence. Qed.


Lemma getCacheKey_inj a b t t' :
  getCacheKey a t = getCacheKey b t' -> a = b /\ t = t'.
Proof.
  destruct t, t'; unfold getCacheKey, CACHE_PREFIX; simpl; intros H;
    inversion H; auto.
Qed.

Lemma getCacheKey_id_email a b : getCacheKey a KId <> getCacheKey b KEmail.
Proof. intros H. apply getCacheKey_inj in H as [_ H]. discriminate. Qed.

(** ** Searching a table whose keys are unique *)

Lemma NoDup_map_eq {A B} (f : A -> B) (l : list A) x y :
  NoDup (List.map f l) -> In x l -> In y l -> f x = f y -> x = y.
Proof.
  induction l as [|a l IH]; simpl; [tauto|].
  intros Hnd Hx Hy Hf. apply NoDup_cons in Hnd as [Hna Hnd].
  rewrite list_elem_of_In in Hna.
  destruct Hx as [->|Hx], Hy as [->|Hy]; auto.
  - exfalso. apply Hna. rewrite Hf. now apply in_map.
  - exfalso. apply Hna. rewrite <- Hf. now apply in_map.
Qed.

Lemma find_unique {A} (P : A -> bool) (l : list A) r :
  In r l -> P r = true -> (forall x, In x l -> P x = true -> x = r) ->
  List.find P l = Some r.
Proof.
  induction l as [|a l IH]; simpl; [tauto|].
  intros Hin HP Hu. destruct (P a) eqn:Ha.
  - f_equal. apply Hu; auto.
  - destruct Hin as [->|Hin]; [congruence|]. apply IH; auto.
Qed.

Lemma find_ext_in {A} (P Q : A -> bool) (l : list A) :
  (forall x, In x l -> P x = Q x) -> List.find P l = List.find Q l.
Proof.
  induction l as [|a l IH]; simpl; [reflexivity|].
  intros H. rewrite <- (H a) by auto. destruct (P a); auto.
Qed.

Lemma same_id rs x y :
  store_ok rs -> In x rs -> In y rs -> ceq (id x) (id y) = true -> x = y.
Proof.
  intros [H _] Hx Hy Hc. apply ceq_true in Hc.
  exact (NoDup_map_eq kid rs x y H Hx Hy Hc).
Qed.

Lemma same_email rs x y :
  store_ok rs -> In x rs -> In y rs -> ceq (email x) (email y) = true -> x = y.
Proof.
  intros [_ H] Hx Hy Hc. apply ceq_true in Hc.
  exact (NoDup_map_eq kem rs x y H Hx Hy Hc).
Qed.

Lemma findUnique_by_id_some i rs u :
  findUnique_by_id i rs = Some u ->
  In u rs /\ ceq (id u) i = true /\ deleted_at u = None.
Proof.
  intros H. apply find_some in H as [Hin H].
  apply andb_prop in H as [H1 H2]. apply bool_decide_eq_true in H2. auto.
Qed.

Lemma findUnique_by_email_some e rs u :
  findUnique_by_email e rs = Some u ->
  In u rs /\ ceq (email u) e = true /\ deleted_at u = None.
Proof.
  intros H. apply find_some in H as [Hin H].
  apply andb_prop in H as [H1 H2]. apply bool_decide_eq_true in H2. auto.
Qed.

Lemma findUnique_by_id_row rs u :
  store_ok rs -> In u rs -> deleted_at u = None ->
  findUnique_by_id (id u) rs = Some u.
Proof.
  intros Hok Hin Hd. apply find_unique; auto.
  - rewrite ceq_refl, Hd. reflexivity.
  - intros x Hx HP. apply andb_prop in HP as [HP _].
    eapply same_id; eauto.
Qed.

Lemma findUnique_by_email_row rs u :
  store_ok rs -> In u rs -> deleted_at u = None ->
  findUnique_by_email (email u) rs = Some u.
Proof.
  intros Hok Hin Hd. apply find_unique; auto.
  - rewrite ceq_refl, Hd. reflexivity.
  - intros x Hx HP. apply andb_prop in HP as [HP _].
    eapply same_email; eauto.
Qed.

Lemma find_by_id_row rs u i :
  store_ok rs -> In u rs -> ceq (id u) i = true ->
  List.find (fun r => ceq (id r) i) rs = Some u.
Proof.
  intros Hok Hin Hc. apply find_unique; auto.
  intros x Hx HP. eapply same_id; eauto.
  apply ceq_true. apply ceq_true in HP, Hc. congruence.
Qed.

(** ** The cache helpers, run *)

Lemma setCacheUser_run u s : setCacheUser u s = (Return tt, cache_put u s).
Proof.
  unfold setCacheUser, cache_put, bind, redisClient.isReady, redisClient.set,
    bind, redisClient.isReady, ret.
  destruct s as [rs c [|]]; reflexivity.
Qed.

Lemma invalidateCacheUser_run u s :
  invalidateCacheUser u s = (Return tt, cache_drop u s).
Proof.
  unfold invalidateCacheUser, cache_drop, bind, redisClient.isReady,
    redisClient.del, bind, redisClient.isReady, ret.
  destruct s as [rs c [|]]; reflexivity.
Qed.

Lemma getCacheUser_run i t s : getCacheUser i t s = (Return (cache_look i t s), s).
Proof.
  unfold getCacheUser, cache_look, bind, try_catch, redisClient.isReady,
    redisClient.get, bind, redisClient.isReady, ret.
  destruct s as [rs c [|]]; reflexivity.
Qed.

Lemma findById_run i s :
  findById i s =
  match cache_look i KId s with
  | Some u => (Return (Some u), s)
  | None =>
      match findUnique_by_id i (rows s) with
      | Some u => (Return (Some u), cache_put u s)
      | None => (Return None, s)
      end
  end.
Proof.
  unfold findById, try_catch, bind. rewrite getCacheUser_run.
  destruct (cache_look i KId s); [reflexivity|].
  unfold prisma_read. destruct (findUnique_by_id i (rows s)); [|reflexivity].
  now rewrite setCacheUser_run.
Qed.

Lemma findByEmail_run e s :
  findByEmail e s =
  match cache_look e KEmail s with
  | Some u => (Return (Some u), s)
  | None =>
      match findUnique_by_email e (rows s) with
      | Some u => (Return (Some u), cache_put u s)
      | None => (Return None, s)
      end
  end.
Proof.
  unfold findByEmail, try_catch, bind. rewrite getCacheUser_run.
  destruct (cache_look e KEmail s); [reflexivity|].
  unfold prisma_read. destruct (findUnique_by_email e (rows s)); [|reflexivity].
  now rewrite setCacheUser_run.
Qed.

Lemma rows_cache_put u s : rows (cache_put u s) = rows s.
Proof. unfold cache_put. now destruct (isConnected s). Qed.

Lemma rows_cache_drop u s : rows (cache_drop u s) = rows s.
Proof. unfold cache_drop. now destruct (isConnected s). Qed.

Lemma isConnected_cache_put u s : isConnected (cache_put u s) = isConnected s.
Proof. destruct s as [rs c [|]]; reflexivity. Qed.

Lemma isConnected_cache_drop u s : isConnected (cache_drop u s) = isConnected s.
Proof. destruct s as [rs c [|]]; reflexivity. Qed.

(** ** The invariant *)

Lemma inv_empty_cache rs b : store_ok rs -> inv (mkState rs ∅ b).
Proof.
  intros H. split; [exact H|]. intros _ k v Hk. simpl in Hk.
  rewrite lookup_empty in Hk. discriminate.
Qed.


Lemma store_ok_nil : store_ok [].
Proof. split; constructor. Qed.

Lemma cache_look_some i t s v :
  coherent s -> cache_look i t s = Some v ->
  In v (rows s) /\ deleted_at v = None /\
  match t with KId => id v = i | KEmail => email v = i end.
Proof.
  unfold cache_look. intros Hc Hl. destruct (isConnected s) eqn:E; [|discriminate].
  destruct (Hc E _ _ Hl) as (Hin & Hd & Hk). repeat split; auto.
  destruct t, Hk as [Hk|Hk]; apply getCacheKey_inj in Hk as [Hk Ht];
    congruence.
Qed.

Lemma inv_cache_put u s :
  inv s -> In u (rows s) -> deleted_at u = None -> inv (cache_put u s).
Proof.
  intros [Hok Hc] Hin Hd. split; [now rewrite rows_cache_put|].
  unfold cache_put. destruct (isConnected s) eqn:E; [|exact Hc].
  intros _ k v Hk. simpl in *.
  rewrite lookup_insert in Hk. case_decide as H1.
  - inversion Hk; subst. auto.
  - rewrite lookup_insert in Hk. case_decide as H2.
    + inversion Hk; subst. auto.
    + apply Hc; auto.
Qed.

Lemma inv_cache_drop u s : inv s -> inv (cache_drop u s).
Proof.
  intros [Hok Hc]. split; [now rewrite rows_cache_drop|].
  unfold cache_drop. destruct (isConnected s) eqn:E; [|exact Hc].
  intros _ k v Hk. simpl in *.
  rewrite lookup_delete in Hk. case_decide; [discriminate|].
  rewrite lookup_delete in Hk. case_decide; [discriminate|].
  apply Hc; auto.
Qed.

(** Once the two keys of a row are dropped no entry mentions the row. *)
Lemma cache_drop_purges u s k v :
  inv s -> In u (rows s) -> isConnected s = true ->
  cache (cache_drop u s) !! k = Some v -> ceq (id v) (id u) = false.
Proof.
  intros [Hok Hc] Hin E. unfold cache_drop. rewrite E. simpl.
  rewrite lookup_delete. case_decide as H1; [discriminate|].
  rewrite lookup_delete. case_decide as H2; [discriminate|].
  intros Hk. destruct (Hc E _ _ Hk) as (Hv & _ & Hkey).
  destruct (ceq (id v) (id u)) eqn:Hce; [|reflexivity].
  assert (v = u) by (eapply same_id; eauto). subst v.
  destruct Hkey; congruence.
Qed.

(** ** The write calls keep the keys unique *)

Lemma not_in_map_existsb {A} (f : A -> string) (P : A -> bool) (l : list A) k :
  existsb P l = false -> (forall x, P x = false -> f x <> k) ->
  ~ In k (List.map f l).
Proof.
  intros He HP Hin. apply in_map_iff in Hin as (x & Hx & Hin).
  apply (HP x); auto.
  destruct (P x) eqn:E; [|reflexivity].
  assert (existsb P l = true) by (apply existsb_exists; eauto). congruence.
Qed.

Lemma prisma_create_ok u rs :
  store_ok rs -> violates_unique u rs = false -> store_ok (rs ++ [u]).
Proof.
  intros [Hi He] Hv. unfold violates_unique in Hv.
  split; rewrite map_app; simpl; apply NoDup_app; (split; [assumption|]);
    (split; [|apply NoDup_singleton]); intros k Hk Hk';
    apply list_elem_of_In in Hk; apply list_elem_of_singleton in Hk'; subst k;
    revert Hk; eapply not_in_map_existsb; eauto; intros x Hx;
    apply orb_false_elim in Hx as [Hx1 Hx2].
  - now apply ceq_false in Hx1.
  - now apply ceq_false in Hx2.
Qed.

(** The row a primary key selects, and the rows around it. *)
Lemma split_by_id rs r i :
  store_ok rs -> In r rs -> ceq (id r) i = true ->
  exists l1 l2, rs = l1 ++ r :: l2 /\
    forall x, In x (l1 ++ l2) -> ceq (id x) i = false.
Proof.
  intros [Hi _] Hin Hc. apply in_split in Hin as (l1 & l2 & ->).
  exists l1, l2. split; [reflexivity|]. intros x Hx.
  destruct (ceq (id x) i) eqn:E; [|reflexivity]. exfalso.
  assert (Hk : kid x = kid r).
  { apply ceq_true in E, Hc. unfold kid. congruence. }
  rewrite map_app in Hi. simpl in Hi.
  apply NoDup_app in Hi as (_ & H1 & H2). apply NoDup_cons in H2 as [H2 _].
  apply in_app_or in Hx as [Hx|Hx].
  - apply (H1 (kid r)).
    + apply list_elem_of_In. rewrite <- Hk. now apply in_map.
    + left.
  - apply H2. apply list_elem_of_In. rewrite <- Hk. now apply in_map.
Qed.

Lemma map_fix {A} (g : A -> A) (l : list A) :
  (forall x, In x l -> g x = x) -> List.map g l = l.
Proof.
  induction l as [|a l IH]; simpl; intros H; [reflexivity|].
  rewrite H by auto. rewrite IH; auto.
Qed.

Lemma filter_all {A} (P : A -> bool) (l : list A) :
  (forall x, In x l -> P x = true) -> List.filter P l = l.
Proof.
  induction l as [|a l IH]; simpl; intros H; [reflexivity|].
  rewrite H by auto. rewrite IH; auto.
Qed.

Lemma NoDup_map_replace {A} (f : A -> string) l1 r r' l2 :
  NoDup (List.map f (l1 ++ r :: l2)) ->
  (f r' = f r \/ forall x, In x (l1 ++ l2) -> f x <> f r') ->
  NoDup (List.map f (l1 ++ r' :: l2)).
Proof.
  rewrite !map_app. simpl. rewrite !NoDup_app, !NoDup_cons.
  intros (H1 & H2 & H3 & H4) [Heq|Hne].
  - rewrite Heq. auto.
  - repeat split; auto.
    + intros k Hk Hk'. apply elem_of_cons in Hk' as [->|Hk'].
      * apply list_elem_of_In, in_map_iff in Hk as (x & Hx & Hin).
        apply (Hne x); auto. apply in_or_app; auto.
      * apply (H2 k Hk). now right.
    + intros Hk. apply list_elem_of_In, in_map_iff in Hk as (x & Hx & Hin).
      apply (Hne x); auto. apply in_or_app; auto.
Qed.

Lemma NoDup_map_remove {A} (f : A -> string) l1 (r : A) l2 :
  NoDup (List.map f (l1 ++ r :: l2)) -> NoDup (List.map f (l1 ++ l2)).
Proof.
  rewrite !map_app. simpl. rewrite !NoDup_app, !NoDup_cons.
  intros (H1 & H2 & H3 & H4). repeat split; auto.
  intros k Hk Hk'. apply (H2 k Hk). now right.
Qed.

Lemma prisma_update_spec now i d rs r :
  store_ok rs -> In r rs -> ceq (id r) i = true ->
  (prisma_update now i d rs = PThrow P2002 /\
   exists e x, set_email d = Some e /\ In x rs /\
               ceq (id x) i = false /\ ceq (email x) e = true)
  \/
  (exists l1 l2, rs = l1 ++ r :: l2 /\
     (forall x, In x (l1 ++ l2) -> ceq (id x) i = false) /\
     (forall e x, set_email d = Some e -> In x (l1 ++ l2) ->
                  ceq (email x) e = false) /\
     prisma_update now i d rs
       = PReturn (apply_update now d r, l1 ++ apply_update now d r :: l2) /\
     store_ok (l1 ++ apply_update now d r :: l2)).
Proof.
  intros Hok Hin Hc. unfold prisma_update.
  rewrite (find_by_id_row rs r i Hok Hin Hc).
  destruct (split_by_id rs r i Hok Hin Hc) as (l1 & l2 & Hrs & Hoth).
  set (r' := apply_update now d r).
  destruct (match set_email d with
            | Some e => existsb (fun x => negb (ceq (id x) i) && ceq (email x) e) rs
            | None => false
            end) eqn:Hclash.
  - left. split; [reflexivity|].
    destruct (set_email d) as [e|]; [|discriminate].
    apply existsb_exists in Hclash as (x & Hx & HP).
    apply andb_prop in HP as [HP1 HP2]. apply negb_true_iff in HP1.
    exists e, x. auto.
  - right. exists l1, l2. split; [exact Hrs|]. split; [exact Hoth|].
    assert (Hfree : forall e x, set_email d = Some e -> In x (l1 ++ l2) ->
                                ceq (email x) e = false).
    { intros e x He Hx. rewrite He in Hclash.
      destruct (ceq (email x) e) eqn:E; [|reflexivity].
      assert (Hex : existsb (fun x => negb (ceq (id x) i) && ceq (email x) e) rs = true).
      { apply existsb_exists. exists x. split.
        - subst rs. apply in_app_or in Hx as [Hx|Hx]; apply in_or_app; simpl; auto.
        - now rewrite (Hoth x Hx), E. }
      congruence. }
    split; [exact Hfree|]. split.
    + f_equal. f_equal. subst rs. rewrite map_app. simpl. rewrite Hc.
      rewrite !map_fix; [reflexivity| |]; intros x Hx;
        rewrite Hoth; auto; apply in_or_app; auto.
    + destruct Hok as [Hi He]. rewrite Hrs in Hi, He. split.
      * eapply NoDup_map_replace; [exact Hi|]. left. reflexivity.
      * eapply NoDup_map_replace; [exact He|].
        unfold kem, r'. simpl. destruct (set_email d) as [e|] eqn:Hse;
          simpl; [right|left; reflexivity].
        intros x Hx Hk. specialize (Hfree e x eq_refl Hx).
        apply ceq_false in Hfree. auto.
Qed.

Lemma prisma_delete_spec i rs r :
  store_ok rs -> In r rs -> ceq (id r) i = true ->
  exists l1 l2, rs = l1 ++ r :: l2 /\
    (forall x, In x (l1 ++ l2) -> ceq (id x) i = false) /\
    prisma_delete i rs = PReturn (l1 ++ l2) /\ store_ok (l1 ++ l2).
Proof.
  intros Hok Hin Hc. unfold prisma_delete.
  rewrite (find_by_id_row rs r i Hok Hin Hc).
  destruct (split_by_id rs r i Hok Hin Hc) as (l1 & l2 & Hrs & Hoth).
  exists l1, l2. split; [exact Hrs|]. split; [exact Hoth|]. split.
  - f_equal. subst rs. rewrite List.filter_app. simpl. rewrite Hc. simpl.
    rewrite !filter_all; [reflexivity| |]; intros x Hx;
      rewrite Hoth; auto; apply in_or_app; auto.
  - destruct Hok as [Hi He]. rewrite Hrs in Hi, He.
    split; eapply NoDup_map_remove; eauto.
Qed.

(** Replacing or removing a row whose two cache keys were dropped, and
    leaving the other rows in place, keeps the cache coherent. *)
Lemma inv_rewrite_rows s r rs' :
  inv s -> In r (rows s) -> store_ok rs' ->
  (forall x, In x (rows s) -> x <> r -> In x rs') ->
  inv (set_rows rs' (cache_drop r s)).
Proof.
  intros Hinv Hin Hok' Hkeep. split; [exact Hok'|].
  intros E k v Hk. simpl in E, Hk. rewrite isConnected_cache_drop in E.
  pose proof (cache_drop_purges r s k v Hinv Hin E Hk) as Hne.
  destruct (inv_cache_drop r s Hinv) as [_ Hc].
  rewrite <- (isConnected_cache_drop r s) in E.
  destruct (Hc E k v Hk) as (Hv & Hd & Hkey). rewrite rows_cache_drop in Hv.
  simpl. repeat split; auto. apply Hkeep; auto.
  intros ->. rewrite ceq_refl in Hne. discriminate.
Qed.

(** ** Point reads under the invariant *)

Lemma reads_refl s : inv s -> reads s s.
Proof. intros H. split; [reflexivity|]. split; [reflexivity|exact H]. Qed.

Lemma reads_trans s1 s2 s3 : reads s1 s2 -> reads s2 s3 -> reads s1 s3.
Proof.
  intros (A & B & C) (D & E & F).
  split; [congruence|]. split; [congruence|exact F].
Qed.

Lemma reads_cache_put u s :
  inv s -> In u (rows s) -> deleted_at u = None -> reads s (cache_put u s).
Proof.
  intros H Hin Hd. split; [apply rows_cache_put|].
  split; [apply isConnected_cache_put|]. now apply inv_cache_put.
Qed.

Lemma findById_inv i s :
  inv s ->
  exists s', findById i s = (Return (findUnique_by_id i (rows s)), s') /\
    reads s s' /\
    (s' = s \/ exists u, findUnique_by_id i (rows s) = Some u /\
                         cache_look i KId s = None /\ s' = cache_put u s).
Proof.
  intros Hinv. rewrite findById_run.
  destruct (cache_look i KId s) as [v|] eqn:Hl.
  - destruct (cache_look_some _ _ _ _ (proj2 Hinv) Hl) as (Hin & Hd & <-).
    exists s. rewrite (findUnique_by_id_row _ _ (proj1 Hinv) Hin Hd).
    split; [reflexivity|]. split; [now apply reads_refl|now left].
  - destruct (findUnique_by_id i (rows s)) as [u|] eqn:Hf.
    + apply findUnique_by_id_some in Hf as (Hin & _ & Hd).
      exists (cache_put u s). split; [reflexivity|].
      split; [now apply reads_cache_put|]. right. eauto.
    + exists s. split; [reflexivity|]. split; [now apply reads_refl|now left].
Qed.

Lemma findByEmail_inv e s :
  inv s ->
  exists s', findByEmail e s = (Return (findUnique_by_email e (rows s)), s') /\
    reads s s' /\
    (s' = s \/ exists u, findUnique_by_email e (rows s) = Some u /\
                         cache_look e KEmail s = None /\ s' = cache_put u s).
Proof.
  intros Hinv. rewrite findByEmail_run.
  destruct (cache_look e KEmail s) as [v|] eqn:Hl.
  - destruct (cache_look_some _ _ _ _ (proj2 Hinv) Hl) as (Hin & Hd & <-).
    exists s. rewrite (findUnique_by_email_row _ _ (proj1 Hinv) Hin Hd).
    split; [reflexivity|]. split; [now apply reads_refl|now left].
  - destruct (findUnique_by_email e (rows s)) as [u|] eqn:Hf.
    + apply findUnique_by_email_some in Hf as (Hin & _ & Hd).
      exists (cache_put u s). split; [reflexivity|].
      split; [now apply reads_cache_put|]. right. eauto.
    + exists s. split; [reflexivity|]. split; [now apply reads_refl|now left].
Qed.



(** ** The writes, step by step *)

Lemma prisma_run {A} (f : list user -> prisma_result (A * list user)) s :
  prisma f s = match f (rows s) with
               | PReturn (a, rs') => (Return a, set_rows rs' s)
               | PThrow e => (Throw (PrismaClientError e), s)
               end.
Proof. reflexivity. Qed.

Lemma create_insert_run env data s :
  create_insert env data s =
  match prisma_create (new_row env data) (rows s) with
  | PReturn rs' =>
      (Return (new_row env data),
       cache_put (new_row env data) (set_rows rs' s))
  | PThrow e => (Throw (PrismaClientError e), s)
  end.
Proof.
  unfold create_insert, bind. rewrite prisma_run.
  destruct (prisma_create (new_row env data) (rows s)); [|reflexivity].
  now rewrite setCacheUser_run.
Qed.

Lemma create_run env data s :
  inv s ->
  match findUnique_by_email (new_email data) (rows s) with
  | Some u =>
      exists s', create env data s = (Throw ConflictError, s') /\ reads s s' /\
        (s' = s \/ cache_look (new_email data) KEmail s = None /\
                   s' = cache_put u s)
  | None =>
      create env data s =
      match prisma_create (new_row env data) (rows s) with
      | PReturn rs' =>
          (Return (new_row env data),
           cache_put (new_row env data) (set_rows rs' s))
      | PThrow _ => (Throw DatabaseError, s)
      end
  end.
Proof.
  intros Hinv. unfold create, try_catch, bind.
  destruct (findByEmail_inv (new_email data) s Hinv) as (s' & E & Hr & Hs).
  rewrite E. destruct (findUnique_by_email (new_email data) (rows s)) as [u|] eqn:Hf.
  - exists s'. split; [reflexivity|]. split; [exact Hr|].
    destruct Hs as [->|(u' & Hu' & Hl & ->)]; [now left|].
    right. split; [exact Hl|]. congruence.
  - destruct Hs as [->|(u' & Hu' & _)]; [|discriminate].
    rewrite create_insert_run.
    destruct (prisma_create (new_row env data) (rows s)); reflexivity.
Qed.

Lemma update_write_run now i d existing s :
  update_write now i d existing s =
  match prisma_update now i (update_data d) (rows s) with
  | PReturn (u', rs') =>
      (Return u', cache_put u' (set_rows rs' (cache_drop existing s)))
  | PThrow e => (Throw (PrismaClientError e), cache_drop existing s)
  end.
Proof.
  unfold update_write, bind. rewrite invalidateCacheUser_run, prisma_run.
  rewrite rows_cache_drop.
  destruct (prisma_update now i (update_data d) (rows s)) as [[u' rs']|e];
    [|reflexivity].
  now rewrite setCacheUser_run.
Qed.

Lemma update_check_run (d : UpdateUserRequest) (existing : user) (s : state) :
  inv s ->
  exists s', reads s s' /\
    update_check d existing s =
    if email_taken d existing (rows s) then (Throw ConflictError, s')
    else (Return tt, s').
Proof.
  intros Hinv. unfold update_check, email_taken.
  destruct (upd_email d) as [e|];
    [|exists s; split; [now apply reads_refl|reflexivity]].
  destruct (negb (String.eqb e "") && negb (String.eqb e (email existing)));
    [|exists s; split; [now apply reads_refl|reflexivity]].
  unfold bind.
  destruct (findByEmail_inv e s Hinv) as (s' & E & Hr & _). rewrite E.
  exists s'. split; [exact Hr|]. simpl.
  destruct (findUnique_by_email e (rows s)) as [w|].
  - rewrite bool_decide_eq_true_2 by eauto. reflexivity.
  - rewrite bool_decide_eq_false_2 by (intros [? ?]; discriminate). reflexivity.
Qed.

Lemma update_run (now : Z) (i : string) (d : UpdateUserRequest) (s : state) :
  inv s ->
  match findUnique_by_id i (rows s) with
  | None => update now i d s = (Throw NotFoundError, s)
  | Some existing =>
      exists s1, reads s s1 /\
        update now i d s =
        if email_taken d existing (rows s) then (Throw ConflictError, s1)
        else
          match prisma_update now i (update_data d) (rows s) with
          | PReturn (u', rs') =>
              (Return u', cache_put u' (set_rows rs' (cache_drop existing s1)))
          | PThrow _ => (Throw DatabaseError, cache_drop existing s1)
          end
  end.
Proof.
  intros Hinv. unfold update, try_catch, bind.
  destruct (findById_inv i s Hinv) as (s1 & E1 & Hr1 & Hs1). rewrite E1.
  destruct (findUnique_by_id i (rows s)) as [ex|] eqn:Hf.
  2:{ destruct Hs1 as [->|(u & Hu & _)]; [reflexivity|discriminate]. }
  destruct (update_check_run d ex s1 (proj2 (proj2 Hr1))) as (s2 & Hr2 & E2).
  rewrite E2. destruct Hr1 as (R1 & R1' & R1''). rewrite R1.
  assert (Hr : reads s s2).
  { eapply reads_trans; [|exact Hr2]. split; [exact R1|]. split; assumption. }
  exists s2. split; [exact Hr|].
  destruct (email_taken d ex (rows s)); [reflexivity|].
  rewrite update_write_run. rewrite (proj1 Hr).
  destruct (prisma_update now i (update_data d) (rows s)) as [[u' rs']|e'];
    reflexivity.
Qed.

Lemma delete_run (i : string) (s : state) :
  inv s ->
  match findUnique_by_id i (rows s) with
  | None => delete i s = (Throw NotFoundError, s)
  | Some existing =>
      exists s1, reads s s1 /\
        delete i s =
        match prisma_delete i (rows s) with
        | PReturn rs' => (Return tt, set_rows rs' (cache_drop existing s1))
        | PThrow _ => (Throw DatabaseError, cache_drop existing s1)
        end
  end.
Proof.
  intros Hinv. unfold delete, try_catch, bind.
  destruct (findById_inv i s Hinv) as (s1 & E1 & Hr1 & Hs1). rewrite E1.
  destruct (findUnique_by_id i (rows s)) as [ex|] eqn:Hf.
  2:{ destruct Hs1 as [->|(u & Hu & _)]; [reflexivity|discriminate]. }
  exists s1. split; [exact Hr1|].
  rewrite invalidateCacheUser_run, prisma_run, rows_cache_drop, (proj1 Hr1).
  destruct (prisma_delete i (rows s)); reflexivity.
Qed.

Lemma softDelete_run (now : Z) (i : string) (s : state) :
  inv s ->
  match findUnique_by_id i (rows s) with
  | None => softDelete now i s = (Throw NotFoundError, s)
  | Some existing =>
      exists s1, reads s s1 /\
        softDelete now i s =
        match prisma_update now i (soft_delete_data now) (rows s) with
        | PReturn (_, rs') => (Return tt, set_rows rs' (cache_drop existing s1))
        | PThrow _ => (Throw DatabaseError, cache_drop existing s1)
        end
  end.
Proof.
  intros Hinv. unfold softDelete, try_catch, bind.
  destruct (findById_inv i s Hinv) as (s1 & E1 & Hr1 & Hs1). rewrite E1.
  destruct (findUnique_by_id i (rows s)) as [ex|] eqn:Hf.
  2:{ destruct Hs1 as [->|(u & Hu & _)]; [reflexivity|discriminate]. }
  exists s1. split; [exact Hr1|].
  rewrite invalidateCacheUser_run, prisma_run, rows_cache_drop, (proj1 Hr1).
  destruct (prisma_update now i (soft_delete_data now) (rows s)) as [[u' rs']|e];
    reflexivity.
Qed.

Lemma findMany_run (p : UserSearchParams) (s : state) :
  findMany p s =
  (match prisma_findMany (q p) (default Ccreated_at (sort_by p))
           (default desc (sort_order p))
           ((default 1 (page p) - 1) * default 10 (limit p))
           (default 10 (limit p)) (rows s) with
   | PReturn users => Return (users, prisma_count (q p) (rows s))
   | PThrow _ => Throw DatabaseError
   end, s).
Proof.
  unfold findMany, try_catch, bind, prisma_query, prisma_read.
  destruct (prisma_findMany _ _ _ _ _ _); reflexivity.
Qed.

(** ** The repository refines its cache-free counterpart *)

Lemma reads_refines {A} (m : M A) (f : list user -> outcome A * list user) s s' :
  reads s s' -> m s = (fst (f (rows s)), s') -> snd (f (rows s)) = rows s ->
  refines m f s.
Proof.
  intros (R1 & R2 & R3) E Hs. exists s'. rewrite Hs. auto.
Qed.

Lemma findById_refines i s :
  inv s -> refines (findById i) (fun rs => (Return (findUnique_by_id i rs), rs)) s.
Proof.
  intros Hinv. destruct (findById_inv i s Hinv) as (s' & E & Hr & _).
  eapply reads_refines; eauto.
Qed.

Lemma findByEmail_refines e s :
  inv s ->
  refines (findByEmail e) (fun rs => (Return (findUnique_by_email e rs), rs)) s.
Proof.
  intros Hinv. destruct (findByEmail_inv e s Hinv) as (s' & E & Hr & _).
  eapply reads_refines; eauto.
Qed.

Lemma findMany_refines p s :
  inv s ->
  refines (findMany p) (fun rs => (fst (findMany p (mkState rs ∅ false)), rs)) s.
Proof.
  intros Hinv. exists s. rewrite !findMany_run. simpl. auto.
Qed.

Lemma create_refines env data s :
  inv s -> refines (create env data) (Store.create env data) s.
Proof.
  intros Hinv. pose proof (create_run env data s Hinv) as H.
  unfold refines, Store.create.
  destruct (findUnique_by_email (new_email data) (rows s)) as [u|] eqn:Hf.
  - destruct H as (s' & E & (R1 & R2 & R3) & _). exists s'. simpl. auto.
  - destruct (prisma_create (new_row env data) (rows s)) as [rs'|e] eqn:Hp.
    + eexists. split; [exact H|]. simpl.
      rewrite rows_cache_put, isConnected_cache_put. simpl.
      split; [reflexivity|]. split; [reflexivity|].
      unfold prisma_create in Hp.
      destruct (violates_unique (new_row env data) (rows s)) eqn:Hv;
        [discriminate|]. inversion Hp; subst rs'.
      apply inv_cache_put; simpl.
      * split; simpl; [now apply prisma_create_ok; [apply Hinv|]|].
        intros Ec k v Hk. destruct (proj2 Hinv Ec k v Hk) as (Hin & Hd & Hkey).
        repeat split; auto. apply in_or_app. now left.
      * apply in_or_app. right. now left.
      * reflexivity.
    + exists s. simpl. split; [exact H|]. auto.
Qed.

Lemma inv_after_write s ex l1 l2 r' :
  inv s -> rows s = l1 ++ ex :: l2 -> store_ok (l1 ++ r' :: l2) ->
  inv (set_rows (l1 ++ r' :: l2) (cache_drop ex s)).
Proof.
  intros Hinv Hrs Hok. apply inv_rewrite_rows; auto.
  - rewrite Hrs. apply in_or_app. right. now left.
  - intros x Hx Hne. rewrite Hrs in Hx.
    apply in_app_or in Hx as [Hx|[Hx|Hx]]; [| congruence |];
      apply in_or_app; simpl; auto.
Qed.

Lemma inv_after_remove s ex l1 l2 :
  inv s -> rows s = l1 ++ ex :: l2 -> store_ok (l1 ++ l2) ->
  inv (set_rows (l1 ++ l2) (cache_drop ex s)).
Proof.
  intros Hinv Hrs Hok. apply inv_rewrite_rows; auto.
  - rewrite Hrs. apply in_or_app. right. now left.
  - intros x Hx Hne. rewrite Hrs in Hx.
    apply in_app_or in Hx as [Hx|[Hx|Hx]]; [| congruence |];
      apply in_or_app; simpl; auto.
Qed.

Lemma update_refines now i d s :
  inv s -> refines (update now i d) (Store.update now i d) s.
Proof.
  intros Hinv. pose proof (update_run now i d s Hinv) as H.
  unfold refines, Store.update.
  destruct (findUnique_by_id i (rows s)) as [ex|] eqn:Hf.
  2:{ exists s. simpl. split; [exact H|]. auto. }
  destruct H as (s1 & (R1 & R2 & R3) & E).
  apply findUnique_by_id_some in Hf as (Hin & Hc & Hd).
  destruct (email_taken d ex (rows s)).
  { exists s1. simpl. auto. }
  destruct (prisma_update_spec now i (update_data d) (rows s) ex
              (proj1 Hinv) Hin Hc)
    as [(Hp & _)|(l1 & l2 & Hrs & _ & _ & Hp & Hok)];
    rewrite Hp in E |- *.
  - eexists. split; [exact E|]. simpl.
    rewrite rows_cache_drop, isConnected_cache_drop.
    split; [exact R1|]. split; [exact R2|]. now apply inv_cache_drop.
  - eexists. split; [exact E|]. simpl.
    rewrite rows_cache_put, isConnected_cache_put. simpl.
    rewrite isConnected_cache_drop.
    split; [reflexivity|]. split; [exact R2|].
    apply inv_cache_put; simpl.
    + apply inv_after_write; auto. congruence.
    + apply in_or_app. right. now left.
    + exact Hd.
Qed.

Lemma delete_refines i s :
  inv s -> refines (delete i) (Store.delete i) s.
Proof.
  intros Hinv. pose proof (delete_run i s Hinv) as H.
  unfold refines, Store.delete.
  destruct (findUnique_by_id i (rows s)) as [ex|] eqn:Hf.
  2:{ exists s. simpl. split; [exact H|]. auto. }
  destruct H as (s1 & (R1 & R2 & R3) & E).
  apply findUnique_by_id_some in Hf as (Hin & Hc & Hd).
  destruct (prisma_delete_spec i (rows s) ex (proj1 Hinv) Hin Hc)
    as (l1 & l2 & Hrs & _ & Hp & Hok).
  rewrite Hp in E |- *. eexists. split; [exact E|]. simpl.
  rewrite isConnected_cache_drop.
  split; [reflexivity|]. split; [exact R2|].
  apply inv_after_remove; auto. congruence.
Qed.

Lemma softDelete_refines now i s :
  inv s -> refines (softDelete now i) (Store.softDelete now i) s.
Proof.
  intros Hinv. pose proof (softDelete_run now i s Hinv) as H.
  unfold refines, Store.softDelete.
  destruct (findUnique_by_id i (rows s)) as [ex|] eqn:Hf.
  2:{ exists s. simpl. split; [exact H|]. auto. }
  destruct H as (s1 & (R1 & R2 & R3) & E).
  apply findUnique_by_id_some in Hf as (Hin & Hc & Hd).
  destruct (prisma_update_spec now i (soft_delete_data now) (rows s) ex
              (proj1 Hinv) Hin Hc)
    as [(Hp & e & x & He & _)|(l1 & l2 & Hrs & _ & _ & Hp & Hok)];
    [discriminate He|].
  rewrite Hp in E |- *. eexists. split; [exact E|]. simpl.
  rewrite isConnected_cache_drop.
  split; [reflexivity|]. split; [exact R2|].
  apply inv_after_write; auto. congruence.
Qed.

(** ** Sequences of repository calls *)

Lemma refines_map {A B} (g : A -> B) (m : M A) f s :
  refines m f s ->
  refines (x <- m ;; ret (g x))
          (fun rs => (outcome_map g (fst (f rs)), snd (f rs))) s.
Proof.
  intros (s' & E & H). exists s'. split; [|exact H].
  unfold bind. rewrite E. simpl. now destruct (fst (f (rows s))).
Qed.

(** Two runs of one operation from the same table agree when both
    refine the same function of the table. *)
Lemma refines_agree {A} (m : M A) f s t :
  refines m f s -> refines m f t -> rows t = rows s ->
  fst (m s) = fst (m t) /\ rows (snd (m s)) = rows (snd (m t)).
Proof.
  intros (s' & Es & Rs & _) (t' & Et & Rt & _) Hrows.
  rewrite Es, Et. simpl. rewrite Rs, Rt, Hrows. auto.
Qed.

Lemma exec_agree c s t :
  inv s -> inv t -> rows t = rows s ->
  fst (exec c s) = fst (exec c t) /\
  rows (snd (exec c s)) = rows (snd (exec c t)) /\
  inv (snd (exec c s)) /\ inv (snd (exec c t)) /\
  isConnected (snd (exec c s)) = isConnected s /\
  isConnected (snd (exec c t)) = isConnected t.
Proof.
  intros Hs Ht Hrows.
  assert (G : forall A (m : M A) f,
             refines m f s -> refines m f t ->
             fst (m s) = fst (m t) /\
             rows (snd (m s)) = rows (snd (m t)) /\
             inv (snd (m s)) /\ inv (snd (m t)) /\
             isConnected (snd (m s)) = isConnected s /\
             isConnected (snd (m t)) = isConnected t).
  { intros A m f Rs Rt.
    destruct (refines_agree m f s t Rs Rt Hrows) as [E1 E2].
    destruct Rs as (s' & Es & _ & Cs & Is), Rt as (t' & Et & _ & Ct & It).
    rewrite Es, Et in *. simpl in *. auto 10. }
  destruct c; simpl.
  - eapply G; apply refines_map; now apply create_refines.
  - eapply G; apply refines_map; now apply findById_refines.
  - eapply G; apply refines_map; now apply findByEmail_refines.
  - eapply G; apply (refines_map (fun r => APage (fst r) (snd r)));
      now apply findMany_refines.
  - eapply G; apply refines_map; now apply update_refines.
  - eapply G; apply (refines_map (fun _ => ADone)); now apply delete_refines.
  - eapply G; apply (refines_map (fun _ => ADone)); now apply softDelete_refines.
Qed.

Lemma run_agree cs : forall s t,
  inv s -> inv t -> rows t = rows s ->
  fst (run cs s) = fst (run cs t) /\
  rows (snd (run cs s)) = rows (snd (run cs t)).
Proof.
  induction cs as [|c cs IH]; intros s t Hs Ht Hrows; simpl; [auto|].
  destruct (exec_agree c s t Hs Ht Hrows) as (E1 & E2 & I1 & I2 & _).
  destruct (exec c s) as [o1 s1], (exec c t) as [o2 t1]. simpl in *.
  specialize (IH s1 t1 I1 I2 (eq_sym E2)).
  destruct (run cs s1) as [os1 s2], (run cs t1) as [os2 t2]. simpl in *.
  destruct IH as [-> ->]. subst. auto.
Qed.

(** ** What the service hands out *)

Lemma mapUserToResponse_stripped u : stripped (mapUserToResponse u).
Proof.
  unfold stripped, mapUserToResponse. split.
  - rewrite lookup_delete_ne by discriminate. apply lookup_delete_eq.
  - apply lookup_delete_eq.
Qed.


Lemma Forall_stripped_map (us : list user) :
  Forall stripped (List.map mapUserToResponse us).
Proof.
  induction us as [|u us IH]; simpl; constructor;
    [apply mapUserToResponse_stripped | exact IH].
Qed.

Lemma getUsers_stripped p s :
  Forall stripped (flat_map data (returned (fst (getUsers p s)))).
Proof.
  unfold getUsers, bind. destruct (findMany p s) as [[[us tot]|e] s']; simpl.
  - rewrite app_nil_r. apply Forall_stripped_map.
  - constructor.
Qed.

(** C9: whatever user representation a service operation returns
    (createUser, getUserById, getUserByEmail, getUsers and searchUsers,
    updateUser, activateUser, deactivateUser), it has neither a
    [password] nor a [deleted_at] property. *)
Theorem service_responses_stripped (s : state) :
  (forall env d, Forall stripped (returned (fst (createUser env d s)))) /\
  (forall i, Forall stripped (returned (fst (getUserById i s)))) /\
  (forall e, Forall stripped
               (flat_map option_list (returned (fst (getUserByEmail e s))))) /\
  (forall p, Forall stripped (flat_map data (returned (fst (getUsers p s))))) /\
  (forall qs p, Forall stripped
                  (flat_map data (returned (fst (searchUsers qs p s))))) /\
  (forall now i d, Forall stripped (returned (fst (updateUser now i d s)))) /\
  (forall now i, Forall stripped (returned (fst (activateUser now i s)))) /\
  (forall now i, Forall stripped (returned (fst (deactivateUser now i s)))).
Proof.
  repeat split.
  - intros env d. unfold createUser, bind.
    destruct (create env d s) as [[u|e] s']; simpl; repeat constructor;
      apply mapUserToResponse_stripped.
  - intros i. unfold getUserById, bind.
    destruct (findById i s) as [[[u|]|e] s']; simpl; repeat constructor;
      apply mapUserToResponse_stripped.
  - intros e. unfold getUserByEmail, bind.
    destruct (findByEmail e s) as [[[u|]|e'] s']; simpl; repeat constructor;
      apply mapUserToResponse_stripped.
  - intros p. apply getUsers_stripped.
  - intros qs p. apply getUsers_stripped.
  - intros now i d. unfold updateUser, bind.
    destruct (update now i d s) as [[u|e] s']; simpl; repeat constructor;
      apply mapUserToResponse_stripped.
  - intros now i. unfold activateUser, bind.
    destruct (update now i _ s) as [[u|e] s']; simpl; repeat constructor;
      apply mapUserToResponse_stripped.
  - intros now i. unfold deactivateUser, bind.
    destruct (update now i _ s) as [[u|e] s']; simpl; repeat constructor;
      apply mapUserToResponse_stripped.
Qed.

(** ** Listing and pagination *)

Lemma col_leb_total c a b : col_leb c a b = true \/ col_leb c b a = true.
Proof.
  destruct c; simpl; try apply String.leb_total.
  - destruct (is_active a), (is_active b); simpl; auto.
  - rewrite !Z.leb_le. lia.
  - rewrite !Z.leb_le. lia.
  - destruct (deleted_at a), (deleted_at b); auto.
    rewrite !Z.leb_le. lia.
Qed.

#[global] Instance order_le_total c o : Total (order_le c o).
Proof.
  intros a b. unfold order_le, order_leb. destruct o.
  - apply col_leb_total.
  - destruct (col_leb_total c a b); auto.
Qed.

Lemma selected_sorted qs c o rs : Sorted (order_le c o) (selected qs c o rs).
Proof. unfold selected. apply Sorted_merge_sort. apply _. Qed.

Lemma selected_perm qs c o rs :
  selected qs c o rs ≡ₚ List.filter (where_input qs) rs.
Proof. unfold selected. apply merge_sort_Permutation. Qed.

Lemma selected_length qs c o rs :
  Z.of_nat (length (selected qs c o rs)) = prisma_count qs rs.
Proof. unfold prisma_count. now rewrite (selected_perm qs c o rs). Qed.

Lemma selected_in qs c o rs r :
  In r (selected qs c o rs) <-> In r rs /\ where_input qs r = true.
Proof.
  rewrite <- filter_In, <- !list_elem_of_In. now rewrite (selected_perm qs c o rs).
Qed.

(** [Math.ceil(total / limit)] is the least number of pages of [limit]
    rows that hold [total] rows. *)
Lemma ceil_div_spec tot lim :
  0 < lim ->
  exists tp, ceil_div tot lim = Num tp /\ (tp - 1) * lim < tot <= tp * lim.
Proof.
  intros Hl. unfold ceil_div.
  destruct (lim =? 0) eqn:E; [apply Z.eqb_eq in E; lia|].
  eexists. split; [reflexivity|].
  pose proof (Z.mul_div_le (- tot) lim Hl).
  pose proof (Z.mul_succ_div_gt (- tot) lim Hl). nia.
Qed.

Lemma findMany_page s p :
  0 <= (default 1 (page p) - 1) * default 10 (limit p) ->
  0 <= default 10 (limit p) ->
  findMany p s =
  (Return
     (firstn (Z.to_nat (default 10 (limit p)))
        (skipn (Z.to_nat ((default 1 (page p) - 1) * default 10 (limit p)))
           (selected (q p) (default Ccreated_at (sort_by p))
              (default desc (sort_order p)) (rows s))),
      prisma_count (q p) (rows s)), s).
Proof.
  intros Hs Hl. rewrite findMany_run. unfold prisma_findMany.
  destruct (_ <? 0) eqn:E1; [apply Z.ltb_lt in E1; lia|].
  destruct (0 <=? _) eqn:E2; [reflexivity|apply Z.leb_gt in E2; lia].
Qed.

(** C7: for a page number at least 1 and a limit between 1 and 100,
    [findMany] skips the first (page-1)*limit rows of the matching rows
    taken in the configured order, returns at most [limit] of them and
    the count of all matching rows; [getUsers] derives
    total_pages = ceil(total/limit), has_next = (page < total_pages) and
    has_prev = (page > 1).  With 12 matching rows, page 2 and limit 5
    give total_pages 3, has_next and has_prev true, and the rows 6 to
    10. *)
Theorem findMany_pagination (s : state) (p : UserSearchParams) :
  let pg := default 1 (page p) in
  let lim := default 10 (limit p) in
  let c := default Ccreated_at (sort_by p) in
  let o := default desc (sort_order p) in
  let matching := List.filter (where_input (q p)) (rows s) in
  let sorted := selected (q p) c o (rows s) in
  let users := firstn (Z.to_nat lim) (skipn (Z.to_nat ((pg - 1) * lim)) sorted) in
  let tot := Z.of_nat (length matching) in
  1 <= pg -> 1 <= lim <= 100 ->
  Sorted (order_le c o) sorted /\ sorted ≡ₚ matching /\
  findMany p s = (Return (users, tot), s) /\
  (length users <= Z.to_nat lim)%nat /\
  (exists tp,
     (tp - 1) * lim < tot <= tp * lim /\
     getUsers p s =
     (Return {| data := List.map mapUserToResponse users;
                pagination := {| pg_page := pg; pg_limit := lim; total := tot;
                                 total_pages := Num tp;
                                 has_next := pg <? tp;
                                 has_prev := 1 <? pg |} |}, s)) /\
  (length matching = 12%nat -> pg = 2 -> lim = 5 ->
   exists resp,
     getUsers p s = (Return resp, s) /\
     total_pages (pagination resp) = Num 3 /\
     has_next (pagination resp) = true /\
     has_prev (pagination resp) = true /\
     data resp = List.map mapUserToResponse users /\
     length users = 5%nat /\
     forall k, (k < 5)%nat -> users !! k = sorted !! (5 + k)%nat).
Proof.
  intros pg lim c o matching sorted users tot Hpg Hlim.
  assert (Hfm : findMany p s = (Return (users, tot), s)).
  { unfold users, tot, matching. fold (prisma_count (q p) (rows s)).
    apply findMany_page; fold pg lim; nia. }
  assert (Hlen : length sorted = length matching).
  { unfold sorted, matching. now rewrite (selected_perm (q p) c o (rows s)). }
  assert (Hgu : forall tp, ceil_div tot lim = Num tp ->
    getUsers p s =
    (Return {| data := List.map mapUserToResponse users;
               pagination := {| pg_page := pg; pg_limit := lim; total := tot;
                                total_pages := Num tp;
                                has_next := pg <? tp;
                                has_prev := 1 <? pg |} |}, s)).
  { intros tp Htp. unfold getUsers, bind. rewrite Hfm. fold pg lim.
    rewrite Htp. reflexivity. }
  split; [apply selected_sorted|]. split; [apply selected_perm|].
  split; [exact Hfm|]. split; [apply firstn_le_length|]. split.
  - destruct (ceil_div_spec tot lim) as (tp & Htp & Hb); [lia|].
    exists tp. split; [exact Hb|]. now apply Hgu.
  - intros H12 Hp2 Hl5. eexists. split.
    + apply Hgu. unfold tot. rewrite H12, Hl5. reflexivity.
    + simpl. rewrite Hp2. repeat split.
      * unfold users. rewrite length_take, length_drop, Hlen, H12, Hp2, Hl5.
        reflexivity.
      * intros k Hk. unfold users. rewrite Hp2, Hl5.
        change (Z.to_nat 5) with 5%nat. change (Z.to_nat ((2 - 1) * 5)) with 5%nat.
        rewrite lookup_take_lt by exact Hk. apply lookup_drop.
Qed.

(** ** Searching *)

Lemma prefix_spec q s :
  String.prefix q s = true <-> exists post, s = q +:+ post.
Proof.
  revert s. induction q as [|a q IH]; intros s; simpl.
  - destruct s; split; eauto.
  - destruct s as [|b s]; simpl.
    + split; [discriminate|]. intros [post H]. discriminate.
    + destruct (Ascii.ascii_dec a b) as [->|Hne].
      * rewrite IH. split; intros [post H]; exists post; [now rewrite H|].
        now inversion H.
      * split; [discriminate|]. intros [post H]. inversion H. congruence.
Qed.

Lemma infix_at_spec q s :
  infix_at q s = true <-> exists pre post, s = pre +:+ q +:+ post.
Proof.
  induction s as [|b s IH]; cbn [infix_at].
  - rewrite orb_false_r, prefix_spec. split.
    + intros [post H]. exists "", post. exact H.
    + intros (pre & post & H). destruct pre; simpl in H; [eauto|discriminate].
  - rewrite orb_true_iff, IH, prefix_spec. split.
    + intros [[post H]|(pre & post & H)].
      * exists "", post. exact H.
      * exists (String b pre), post. simpl. now rewrite H.
    + intros (pre & post & H). destruct pre as [|c pre]; simpl in H.
      * left. eauto.
      * right. inversion H. eauto.
Qed.

Lemma contains_spec q s : contains q s = true <-> occurs_in q s.
Proof. unfold contains, occurs_in. apply infix_at_spec. Qed.

Lemma where_input_deleted qs r : where_input qs r = true -> deleted_at r = None.
Proof.
  unfold where_input. intros H. apply andb_prop in H as [H _].
  now apply bool_decide_eq_true in H.
Qed.

Lemma where_input_spec qs r :
  qs <> "" -> where_input (Some qs) r = true <-> matches qs r.
Proof.
  intros Hq. unfold where_input, matches.
  apply String.eqb_neq in Hq. rewrite Hq.
  rewrite andb_true_iff, !orb_true_iff, bool_decide_eq_true, !contains_spec.
  tauto.
Qed.

Lemma slice_of_list {A} (n k : nat) (l : list A) :
  exists pre post, l = pre ++ firstn n (skipn k l) ++ post.
Proof.
  exists (firstn k l), (skipn n (skipn k l)).
  now rewrite (firstn_skipn n), (firstn_skipn k).
Qed.

Lemma prisma_findMany_slice qs c o skip take rs users :
  prisma_findMany qs c o skip take rs = PReturn users ->
  exists pre post, selected qs c o rs = pre ++ users ++ post.
Proof.
  unfold prisma_findMany. destruct (skip <? 0); [discriminate|].
  destruct (0 <=? take); intros H; inversion H; subst users; clear H.
  - apply slice_of_list.
  - destruct (slice_of_list (Z.to_nat (- take)) (Z.to_nat skip)
                (rev (selected qs c o rs))) as (pre & post & E).
    exists (rev post), (rev pre).
    apply (f_equal (@rev user)) in E. rewrite rev_involutive in E.
    etransitivity; [exact E|].
    rewrite !rev_app_distr. now rewrite <- app_assoc.
Qed.


(** C6: [findMany] with a non-empty [q] returns a page of exactly the
    rows whose [deleted_at] is null and whose first name, last name or
    email contains [q], letter case ignored, and counts exactly those
    rows; soft-deleted rows are in neither the page nor the count,
    whether [q] is given or not; the cache is not consulted and the
    state is left as it was. *)
Theorem findMany_search (s s' : state) (p : UserSearchParams)
    (users : list user) (tot : Z) :
  findMany p s = (Return (users, tot), s') ->
  s' = s /\
  (forall c b, findMany p (mkState (rows s) c b)
               = (Return (users, tot), mkState (rows s) c b)) /\
  exists found,
    found ≡ₚ List.filter (where_input (q p)) (rows s) /\
    tot = Z.of_nat (length found) /\
    (exists pre post, found = pre ++ users ++ post) /\
    (forall r, In r found -> In r (rows s) /\ deleted_at r = None) /\
    (forall r, In r users -> In r (rows s) /\ deleted_at r = None) /\
    (forall qs, q p = Some qs -> qs <> "" ->
       (forall r, In r found <-> In r (rows s) /\ matches qs r) /\
       (forall r, In r users -> matches qs r)).
Proof.
  intros H. rewrite findMany_run in H.
  set (c := default Ccreated_at (sort_by p)) in *.
  set (o := default desc (sort_order p)) in *.
  destruct (prisma_findMany _ _ _ _ _ _) as [us|e] eqn:Hp; [|discriminate].
  inversion H; subst us tot s'. clear H.
  split; [reflexivity|]. split.
  { intros c0 b. rewrite findMany_run. simpl. fold c o. now rewrite Hp. }
  destruct (prisma_findMany_slice _ _ _ _ _ _ _ Hp) as (pre & post & Hsl).
  exists (selected (q p) c o (rows s)).
  assert (Hfound : forall r, In r (selected (q p) c o (rows s)) ->
                             In r (rows s) /\ deleted_at r = None).
  { intros r Hr. apply selected_in in Hr as [Hr Hw].
    split; [exact Hr|]. eapply where_input_deleted; eauto. }
  assert (Husers : forall r, In r users -> In r (selected (q p) c o (rows s))).
  { intros r Hr. rewrite Hsl. apply in_or_app. right. apply in_or_app. now left. }
  split; [apply selected_perm|]. split; [symmetry; apply selected_length|].
  split; [eauto|]. split; [exact Hfound|]. split; [auto|].
  intros qs Hq Hne. assert (Hiff : forall r,
    In r (selected (q p) c o (rows s)) <-> In r (rows s) /\ matches qs r).
  { intros r. rewrite selected_in, Hq, where_input_spec by exact Hne. tauto. }
  split; [exact Hiff|]. intros r Hr. now apply Hiff, Husers.
Qed.

(** ** Creating a user *)

Lemma find_none_intro {A} (P : A -> bool) (l : list A) :
  (forall x, In x l -> P x = false) -> List.find P l = None.
Proof.
  induction l as [|a l IH]; simpl; intros H; [reflexivity|].
  rewrite H by auto. apply IH. auto.
Qed.

Lemma email_owner_rejects (r : user) (rs : list user) :
  (exists x, In x rs /\ ceq (email x) (email r) = true) ->
  prisma_create r rs = PThrow P2002.
Proof.
  intros (x & Hx & Hc). unfold prisma_create, violates_unique.
  assert (H : existsb (fun x => ceq (id x) (id r) || ceq (email x) (email r)) rs
              = true).
  { apply existsb_exists. exists x. split; [exact Hx|]. rewrite Hc.
    apply orb_true_r. }
  now rewrite H.
Qed.

(** C1, as the code has it: when the pre-check of [create] finds no
    user and the insert is then refused by the unique index on email
    (the table holds the email by the time of the insert, because of a
    create that committed in between or of a soft-deleted row), [create]
    fails with DatabaseError: its [catch] block lets only a
    ConflictError through and wraps everything else. *)
Theorem create_constraint_rejection (env : create_env)
    (d : CreateUserRequest) (s0 s0' s : state) :
  findByEmail (new_email d) s0 = (Return None, s0') ->
  (exists x, In x (rows s) /\ ceq (email x) (new_email d) = true) ->
  create env d s0 = try_catch (create_insert env d) create_catch s0' /\
  try_catch (create_insert env d) create_catch s = (Throw DatabaseError, s).
Proof.
  intros Hpre Hown. split.
  - unfold create, try_catch at 1, bind. rewrite Hpre. reflexivity.
  - unfold try_catch. rewrite create_insert_run.
    rewrite (email_owner_rejects (new_row env d) (rows s) Hown). reflexivity.
Qed.


(** C2, as the code has it: when a live user owns [data.email],
    [create] fails with ConflictError and writes no row.  The cache is
    left as it was when it already answered for the email (or is not
    connected); otherwise the pre-check read the user from the table and
    filed it under its two keys, and that is the only change. *)
Theorem create_existing_email (env : create_env) (d : CreateUserRequest)
    (s : state) (u : user) :
  inv s -> In u (rows s) -> deleted_at u = None ->
  ceq (email u) (new_email d) = true ->
  create env d s
  = (Throw ConflictError,
     match cache_look (new_email d) KEmail s with
     | Some _ => s
     | None => cache_put u s
     end) /\
  rows (snd (create env d s)) = rows s /\
  (isConnected s = false -> snd (create env d s) = s).
Proof.
  intros Hinv Hu Hd Hc.
  assert (Hf : findUnique_by_email (new_email d) (rows s) = Some u).
  { apply find_unique; auto.
    - rewrite Hc, Hd. reflexivity.
    - intros y Hy HP. apply andb_prop in HP as [HP _].
      eapply same_email; eauto; [apply Hinv|].
      apply ceq_true. apply ceq_true in HP, Hc. congruence. }
  assert (E : create env d s
              = (Throw ConflictError,
                 match cache_look (new_email d) KEmail s with
                 | Some _ => s
                 | None => cache_put u s
                 end)).
  { unfold create, try_catch, bind. rewrite findByEmail_run, Hf.
    destruct (cache_look (new_email d) KEmail s); reflexivity. }
  rewrite E. simpl. split; [reflexivity|]. split.
  - destruct (cache_look (new_email d) KEmail s); [reflexivity|].
    apply rows_cache_put.
  - intros Hoff. destruct (cache_look (new_email d) KEmail s); [reflexivity|].
    unfold cache_put. now rewrite Hoff.
Qed.

(** ** Soft delete *)




Lemma cache_drop_look_id u s : cache_look (id u) KId (cache_drop u s) = None.
Proof.
  destruct s as [rs c [|]]; unfold cache_look, cache_drop; simpl; [|reflexivity].
  rewrite lookup_delete_ne by (intros Hk; symmetry in Hk;
    now apply getCacheKey_id_email in Hk).
  apply lookup_delete_eq.
Qed.

Lemma cache_drop_look_email u s :
  cache_look (email u) KEmail (cache_drop u s) = None.
Proof.
  destruct s as [rs c [|]]; unfold cache_look, cache_drop; simpl; [|reflexivity].
  apply lookup_delete_eq.
Qed.

(** ** Changing the email *)

Lemma cache_put_look_id u s :
  isConnected s = true -> cache_look (id u) KId (cache_put u s) = Some u.
Proof.
  destruct s as [rs c b]. simpl. intros ->. unfold cache_look, cache_put. simpl.
  rewrite lookup_insert_ne by (intros Hk; symmetry in Hk;
    now apply getCacheKey_id_email in Hk).
  apply lookup_insert_eq.
Qed.

Lemma cache_put_look_email u s :
  isConnected s = true -> cache_look (email u) KEmail (cache_put u s) = Some u.
Proof.
  destruct s as [rs c b]. simpl. intros ->. unfold cache_look, cache_put. simpl.
  apply lookup_insert_eq.
Qed.


(** ** Activating and deactivating *)

Lemma email_taken_set_active b u rs : email_taken (set_active b) u rs = false.
Proof. reflexivity. Qed.

Lemma findUnique_by_id_ceq rs u i :
  store_ok rs -> In u rs -> deleted_at u = None -> ceq (id u) i = true ->
  findUnique_by_id i rs = Some u.
Proof.
  intros Hok Hin Hd Hc. apply find_unique; auto.
  - rewrite Hc, Hd. reflexivity.
  - intros x Hx HP. apply andb_prop in HP as [HP _].
    eapply same_id; eauto. apply ceq_true. apply ceq_true in HP, Hc. congruence.
Qed.

(** A successful [update(id, {is_active: b})], step by step. *)
Lemma set_active_run b now i s u' s' :
  inv s -> update now i (set_active b) s = (Return u', s') ->
  exists ex l1 l2,
    rows s = l1 ++ ex :: l2 /\ deleted_at ex = None /\ ceq (id ex) i = true /\
    u' = apply_update now (update_data (set_active b)) ex /\
    rows s' = l1 ++ u' :: l2 /\ inv s'.
Proof.
  intros Hinv Hrun. pose proof (update_run now i (set_active b) s Hinv) as H.
  destruct (findUnique_by_id i (rows s)) as [ex|] eqn:Hf;
    [|rewrite H in Hrun; discriminate].
  apply findUnique_by_id_some in Hf as (Hex & Hc & Hd).
  destruct H as (s1 & (R1 & R2 & R3) & E). rewrite E in Hrun. clear E.
  rewrite email_taken_set_active in Hrun.
  destruct (prisma_update_spec now i (update_data (set_active b)) (rows s) ex
              (proj1 Hinv) Hex Hc)
    as [(Hp & e & x & He & _)|(l1 & l2 & Hrs & _ & _ & Hp & Hok)];
    [discriminate He|].
  rewrite Hp in Hrun. injection Hrun as <- <-.
  exists ex, l1, l2. split; [exact Hrs|]. split; [exact Hd|].
  split; [exact Hc|]. split; [reflexivity|].
  split; [now rewrite rows_cache_put|].
  apply inv_cache_put; simpl; auto.
  - apply inv_after_write; auto. congruence.
  - apply in_or_app. right. now left.
Qed.

(** C8, as the code has it: [activateUser] and [deactivateUser] are
    [update(id, {is_active: true|false})] followed by the stripping of
    the response; a second call after a successful first one succeeds
    and leaves every row as the first call left it, except that the
    user's [updated_at] is stamped again, with the time of the second
    call (so the table is unchanged only if the clock has not moved). *)
Theorem set_active_twice (b : bool) (now1 now2 : Z) (i : string)
    (s s1 : state) (u1 : user) :
  inv s -> update now1 i (set_active b) s = (Return u1, s1) ->
  (forall now j, activateUser now j
     = (u <- update now j (set_active true) ;; ret (mapUserToResponse u))) /\
  (forall now j, deactivateUser now j
     = (u <- update now j (set_active false) ;; ret (mapUserToResponse u))) /\
  is_active u1 = b /\ updated_at u1 = now1 /\
  exists s2 l1 l2,
    update now2 i (set_active b) s1
    = (Return (mkUser (id u1) (first_name u1) (last_name u1) (email u1)
                 (password u1) (is_active u1) (created_at u1) now2
                 (deleted_at u1)), s2) /\
    rows s1 = l1 ++ u1 :: l2 /\
    rows s2 = l1 ++ mkUser (id u1) (first_name u1) (last_name u1) (email u1)
                      (password u1) (is_active u1) (created_at u1) now2
                      (deleted_at u1) :: l2 /\
    (now2 = now1 -> rows s2 = rows s1).
Proof.
  intros Hinv Hrun.
  destruct (set_active_run b now1 i s u1 s1 Hinv Hrun)
    as (ex & l1 & l2 & Hrs & Hd & Hc & Hu1 & Hrows1 & Hinv1).
  split; [reflexivity|]. split; [reflexivity|].
  assert (Hact : is_active u1 = b) by (now subst u1).
  assert (Hupd : updated_at u1 = now1) by (now subst u1).
  split; [exact Hact|]. split; [exact Hupd|].
  assert (Hin1 : In u1 (rows s1)).
  { rewrite Hrows1. apply in_or_app. right. now left. }
  assert (Hd1 : deleted_at u1 = None) by (subst u1; exact Hd).
  assert (Hc1 : ceq (id u1) i = true) by (subst u1; exact Hc).
  pose proof (update_run now2 i (set_active b) s1 Hinv1) as H.
  rewrite (findUnique_by_id_ceq _ _ _ (proj1 Hinv1) Hin1 Hd1 Hc1) in H.
  destruct H as (s1' & (R1 & R2 & R3) & E).
  rewrite email_taken_set_active in E.
  destruct (split_by_id (rows s1) u1 i (proj1 Hinv1) Hin1 Hc1)
    as (m1 & m2 & Hm & Hoth).
  assert (Hp : prisma_update now2 i (update_data (set_active b)) (rows s1)
               = PReturn (apply_update now2 (update_data (set_active b)) u1,
                          m1 ++ apply_update now2 (update_data (set_active b)) u1
                             :: m2)).
  { unfold prisma_update.
    rewrite (find_by_id_row _ _ _ (proj1 Hinv1) Hin1 Hc1). simpl.
    f_equal. f_equal. rewrite Hm at 1. rewrite map_app. simpl. rewrite Hc1.
    rewrite !map_fix; [reflexivity| |]; intros x Hx;
      rewrite Hoth; auto; apply in_or_app; auto. }
  rewrite Hp in E.
  assert (Hu2 : apply_update now2 (update_data (set_active b)) u1
                = mkUser (id u1) (first_name u1) (last_name u1) (email u1)
                    (password u1) (is_active u1) (created_at u1) now2
                    (deleted_at u1)).
  { unfold apply_update. simpl. now rewrite Hact. }
  rewrite Hu2 in E. eexists. exists m1, m2. split; [exact E|].
  split; [exact Hm|]. split; [now rewrite rows_cache_put|].
  intros ->. rewrite rows_cache_put. simpl. rewrite Hm. f_equal. f_equal.
  rewrite <- Hupd. now destruct u1.
Qed.

(** ** The invariant along a run *)

Lemma exec_inv c s : inv s -> inv (snd (exec c s)).
Proof. intros H. now destruct (exec_agree c s s H H eq_refl) as (_ & _ & I & _). Qed.

Lemma run_inv cs : forall s, inv s -> inv (snd (run cs s)).
Proof.
  induction cs as [|c cs IH]; intros s H; simpl; [exact H|].
  pose proof (exec_inv c s H) as H1. destruct (exec c s) as [o s1].
  specialize (IH s1 H1). now destruct (run cs s1).
Qed.

(** Every state reached from an empty table, with the cache connected
    or not, satisfies it. *)
Lemma reachable_inv cs b : inv (snd (run cs (mkState [] ∅ b))).
Proof. apply run_inv, inv_empty_cache, store_ok_nil. Qed.

(** ** Worked examples *)

Lemma NoDup_strings_by_decide (l : list string) :
  bool_decide (NoDup l) = true -> NoDup l.
Proof. apply bool_decide_eq_true. Qed.

Lemma two_rows_inv : inv two_rows.
Proof.
  apply inv_empty_cache. split; apply NoDup_strings_by_decide; vm_compute;
    reflexivity.
Qed.


(** C1 fails as stated: Bob is soft-deleted, the pre-check finds no
    user, the insert is refused by the unique index, and [create] fails
    with DatabaseError, not ConflictError. *)
Lemma create_rejection_not_conflict :
  fst (findByEmail (new_email bob_again) two_rows) = Return None /\
  prisma_create (new_row env3 bob_again) (rows two_rows) = PThrow P2002 /\
  fst (create env3 bob_again two_rows) = Throw DatabaseError /\
  fst (create env3 bob_again two_rows) <> Throw ConflictError.
Proof.
  assert (E : fst (create env3 bob_again two_rows) = Throw DatabaseError)
    by (vm_compute; reflexivity).
  repeat split; try (vm_compute; reflexivity).
  rewrite E. discriminate.
Qed.

(** C2 fails as stated: Ann is live and not cached; [create] with her
    email fails with ConflictError and writes no row, but the pre-check
    has filed her row in the cache. *)
Lemma create_conflict_fills_cache :
  fst (create env3 ann_again two_rows) = Throw ConflictError /\
  rows (snd (create env3 ann_again two_rows)) = rows two_rows /\
  cache two_rows !! getCacheKey "ann@example.com" KEmail = None /\
  cache (snd (create env3 ann_again two_rows))
    !! getCacheKey "ann@example.com" KEmail = Some ann /\
  cache (snd (create env3 ann_again two_rows)) <> cache two_rows.
Proof.
  assert (E : cache (snd (create env3 ann_again two_rows))
                !! getCacheKey "ann@example.com" KEmail = Some ann)
    by (vm_compute; reflexivity).
  repeat split; try (vm_compute; reflexivity); try exact E.
  intros H. rewrite H in E. vm_compute in E. discriminate.
Qed.

(** C8 fails as stated: activating Ann at time 40 and again at time 50
    leaves two different rows, the second stamped 50. *)
Lemma activate_twice_restamps :
  let s1 := snd (activateUser 40 "id-1" two_rows) in
  let s2 := snd (activateUser 50 "id-1" s1) in
  fst (findById "id-1" s1)
    = Return (Some (mkUser "id-1" "Ann" "Lee" "ann@example.com" "digest-1"
                      true 10 40 None)) /\
  fst (findById "id-1" s2)
    = Return (Some (mkUser "id-1" "Ann" "Lee" "ann@example.com" "digest-1"
                      true 10 50 None)) /\
  rows s2 <> rows s1.
Proof.
  repeat split; try (vm_compute; reflexivity).
  vm_compute. discriminate.
Qed.

Lemma create_constraint_rejection_witness :
  findByEmail (new_email bob_again) two_rows = (Return None, two_rows) /\
  create env3 bob_again two_rows = (Throw DatabaseError, two_rows).
Proof.
  assert (Hpre : findByEmail (new_email bob_again) two_rows
                 = (Return None, two_rows)) by (vm_compute; reflexivity).
  split; [exact Hpre|].
  destruct (create_constraint_rejection env3 bob_again two_rows two_rows
              two_rows Hpre) as [H1 H2].
  - exists bob. split; [right; left; reflexivity | vm_compute; reflexivity].
  - rewrite H1. exact H2.
Defined.


Lemma create_existing_email_witness :
  deleted_at ann = None /\
  create env3 ann_again two_rows
  = (Throw ConflictError, cache_put ann two_rows).
Proof.
  split; [reflexivity|].
  apply (create_existing_email env3 ann_again two_rows ann).
  - exact two_rows_inv.
  - left. reflexivity.
  - reflexivity.
  - vm_compute. reflexivity.
Defined.

Lemma findMany_search_witness :
  findMany search_ann two_rows = (Return ([ann], 1), two_rows) /\
  matches "ANN" ann.
Proof.
  assert (Hrun : findMany search_ann two_rows = (Return ([ann], 1), two_rows))
    by (vm_compute; reflexivity).
  split; [exact Hrun|].
  destruct (findMany_search two_rows two_rows search_ann [ann] 1 Hrun)
    as (_ & _ & found & _ & _ & _ & _ & _ & H).
  destruct (H "ANN" eq_refl) as [_ Hm]; [discriminate|].
  apply Hm. left. reflexivity.
Defined.

Lemma findMany_pagination_witness :
  findMany page_two twelve_rows
  = (Return ([ sample 7 "g"; sample 6 "f"; sample 5 "e"; sample 4 "d";
               sample 3 "c" ], 12), twelve_rows).
Proof.
  destruct (findMany_pagination twelve_rows page_two) as (_ & _ & H & _).
  - simpl. lia.
  - simpl. lia.
  - exact H.
Defined.

Lemma set_active_twice_witness :
  let s1 := snd (update 40 "id-1" (set_active true) two_rows) in
  let ann1 := mkUser "id-1" "Ann" "Lee" "ann@example.com" "digest-1" true 10 40
                None in
  update 40 "id-1" (set_active true) two_rows = (Return ann1, s1) /\
  exists s2,
    update 50 "id-1" (set_active true) s1
    = (Return (mkUser "id-1" "Ann" "Lee" "ann@example.com" "digest-1" true 10
                 50 None), s2).
Proof.
  intros s1 ann1.
  assert (Hrun : update 40 "id-1" (set_active true) two_rows = (Return ann1, s1))
    by (vm_compute; reflexivity).
  split; [exact Hrun|].
  destruct (set_active_twice true 40 50 "id-1" two_rows s1 ann1 two_rows_inv Hrun)
    as (_ & _ & _ & _ & s2 & l1 & l2 & H & _).
  exists s2. exact H.
Defined.

(** Outside the invariant: while the connection is lost the repository
    skips the invalidation, so what the cache held before is served
    again once the connection is back. *)
Lemma connection_loss_breaks_mirror :
  let s1 := snd (findById "id-1" two_rows) in
  let s2 := redisClient.on_error s1 in
  let s3 := snd (softDelete 40 "id-1" s2) in
  let s4 := redisClient.on_connect s3 in
  inv s1 /\ fst (softDelete 40 "id-1" s2) = Return tt /\ inv s3 /\
  fst (findById "id-1" s4) = Return (Some ann) /\ ~ coherent s4.
Proof.
  intros s1 s2 s3 s4.
  assert (H1 : inv s1).
  { destruct (findById_inv "id-1" two_rows two_rows_inv) as (s' & E & R & _).
    unfold s1. rewrite E. apply R. }
  assert (H3 : inv s3).
  { apply (exec_inv (SoftDelete 40 "id-1") s2). split; [apply H1|].
    intros Hc. discriminate Hc. }
  split; [exact H1|]. split; [vm_compute; reflexivity|]. split; [exact H3|].
  split; [vm_compute; reflexivity|].
  intros Hc. destruct (Hc eq_refl (getCacheKey "id-1" KId) ann) as (Hin & _).
  - vm_compute. reflexivity.
  - vm_compute in Hin. destruct Hin as [Hin|[Hin|[]]]; discriminate Hin.
Qed.

(** * Further properties of the repository and the service *)

(** ** What the calls leave alone *)

Section Keeps.

Context (R : relation state) `{!PreOrder R}.

Lemma keeps_ret {A} (a : A) : keeps R (ret a).
Proof. intros s. simpl. reflexivity. Qed.

Lemma keeps_throw {A} (e : exn) : keeps R (@throw A e).
Proof. intros s. simpl. reflexivity. Qed.

Lemma keeps_bind {A B} (m : M A) (k : A -> M B) :
  keeps R m -> (forall a, keeps R (k a)) -> keeps R (bind m k).
Proof.
  intros Hm Hk s. unfold bind. specialize (Hm s).
  destruct (m s) as [[a|e] s1]; simpl in *; [|exact Hm].
  etransitivity; [exact Hm|apply Hk].
Qed.

Lemma keeps_try_catch {A} (m : M A) (h : exn -> M A) :
  keeps R m -> (forall e, keeps R (h e)) -> keeps R (try_catch m h).
Proof.
  intros Hm Hh s. unfold try_catch. specialize (Hm s).
  destruct (m s) as [[a|e] s1]; simpl in *; [exact Hm|].
  etransitivity; [exact Hm|apply Hh].
Qed.

Lemma keeps_prisma_read {A} (f : list user -> A) : keeps R (prisma_read f).
Proof. intros s. simpl. reflexivity. Qed.

Lemma keeps_prisma_query {A} (f : list user -> prisma_result A) :
  keeps R (prisma_query f).
Proof. intros s. unfold prisma_query. destruct (f (rows s)); simpl; reflexivity. Qed.

End Keeps.

#[global] Instance cache_respected_preorder : PreOrder cache_respected.
Proof.
  split.
  - intros s. split; auto.
  - intros s1 s2 s3 [A1 A2] [B1 B2]. split; [congruence|].
    intros H. rewrite B2 by congruence. auto.
Qed.

#[global] Instance same_rows_preorder : PreOrder same_rows.
Proof.
  split; [intros s; reflexivity|].
  intros s1 s2 s3 A B. unfold same_rows in *. congruence.
Qed.

Lemma keeps_cache_prisma {A} (f : list user -> prisma_result (A * list user)) :
  keeps cache_respected (prisma f).
Proof.
  intros s. unfold prisma. destruct (f (rows s)) as [[a rs']|e]; simpl;
    split; auto.
Qed.

Lemma keeps_redis_set R `{!PreOrder R} k v :
  (forall s c, isConnected s = true -> R s (set_cache c s)) ->
  keeps R (redisClient.set k v).
Proof.
  intros H s. unfold redisClient.set, bind, redisClient.isReady.
  destruct (isConnected s) eqn:E; simpl; [|reflexivity].
  apply (H s (<[k:=v]> (cache s)) E).
Qed.

Lemma keeps_redis_del R `{!PreOrder R} k :
  (forall s c, isConnected s = true -> R s (set_cache c s)) ->
  keeps R (redisClient.del k).
Proof.
  intros H s. unfold redisClient.del, bind, redisClient.isReady.
  destruct (isConnected s) eqn:E; simpl; [|reflexivity].
  apply (H s (base.delete k (cache s)) E).
Qed.

Lemma keeps_redis_get R `{!PreOrder R} k : keeps R (redisClient.get k).
Proof.
  intros s. unfold redisClient.get, bind, redisClient.isReady.
  destruct (isConnected s); simpl; reflexivity.
Qed.

Lemma keeps_isReady R `{!PreOrder R} : keeps R redisClient.isReady.
Proof. intros s. simpl. reflexivity. Qed.

(** The three cache helpers keep any relation that writing a connected
    cache keeps. *)
Section CacheHelpers.

Context (R : relation state) `{!PreOrder R}.
Hypothesis R_write : forall s c, isConnected s = true -> R s (set_cache c s).

Lemma keeps_setCacheUser u : keeps R (setCacheUser u).
Proof.
  unfold setCacheUser. apply keeps_bind; [apply _|apply keeps_isReady; apply _|].
  intros [|]; simpl; [|apply keeps_ret; apply _].
  apply keeps_bind; [apply _|now apply keeps_redis_set|].
  intros _. now apply keeps_redis_set.
Qed.

Lemma keeps_invalidateCacheUser u : keeps R (invalidateCacheUser u).
Proof.
  unfold invalidateCacheUser.
  apply keeps_bind; [apply _|apply keeps_isReady; apply _|].
  intros [|]; simpl; [|apply keeps_ret; apply _].
  apply keeps_bind; [apply _|now apply keeps_redis_del|].
  intros _. now apply keeps_redis_del.
Qed.

Lemma keeps_getCacheUser i t : keeps R (getCacheUser i t).
Proof.
  unfold getCacheUser.
  apply keeps_bind; [apply _|apply keeps_isReady; apply _|].
  intros [|]; simpl; [|apply keeps_ret; apply _].
  apply keeps_try_catch; [apply _|apply keeps_redis_get; apply _|].
  intros _. apply keeps_ret; apply _.
Qed.

Lemma keeps_findById i : keeps R (findById i).
Proof.
  unfold findById. apply keeps_try_catch; [apply _| |intros; now apply keeps_throw].
  apply keeps_bind; [apply _|apply keeps_getCacheUser|].
  intros [u|]; [now apply keeps_ret|].
  apply keeps_bind; [apply _|now apply keeps_prisma_read|].
  intros [u|]; [|now apply keeps_ret].
  apply keeps_bind; [apply _|apply keeps_setCacheUser|].
  intros _. now apply keeps_ret.
Qed.

Lemma keeps_findByEmail e : keeps R (findByEmail e).
Proof.
  unfold findByEmail. apply keeps_try_catch; [apply _| |intros; now apply keeps_throw].
  apply keeps_bind; [apply _|apply keeps_getCacheUser|].
  intros [u|]; [now apply keeps_ret|].
  apply keeps_bind; [apply _|now apply keeps_prisma_read|].
  intros [u|]; [|now apply keeps_ret].
  apply keeps_bind; [apply _|apply keeps_setCacheUser|].
  intros _. now apply keeps_ret.
Qed.

Lemma keeps_findMany p : keeps R (findMany p).
Proof.
  unfold findMany. apply keeps_try_catch; [apply _| |intros; now apply keeps_throw].
  apply keeps_bind; [apply _|now apply keeps_prisma_query|].
  intros us. apply keeps_bind; [apply _|now apply keeps_prisma_read|].
  intros n. now apply keeps_ret.
Qed.

End CacheHelpers.

Lemma cache_respected_write s c :
  isConnected s = true -> cache_respected s (set_cache c s).
Proof. intros E. split; [reflexivity|]. intros H. congruence. Qed.

Lemma same_rows_write s c : isConnected s = true -> same_rows s (set_cache c s).
Proof. intros _. reflexivity. Qed.

Lemma keeps_create env d : keeps cache_respected (create env d).
Proof.
  pose proof cache_respected_write as W.
  unfold create. apply keeps_try_catch; [apply _| |].
  - apply keeps_bind; [apply _|apply (keeps_findByEmail _ W)|].
    intros [u|]; [apply keeps_throw, _|].
    unfold create_insert. apply keeps_bind; [apply _|apply keeps_cache_prisma|].
    intros _. apply keeps_bind; [apply _|apply (keeps_setCacheUser _ W)|].
    intros _. apply keeps_ret, _.
  - intros e. unfold create_catch. destruct e; apply keeps_throw, _.
Qed.

Lemma keeps_update now i d : keeps cache_respected (update now i d).
Proof.
  pose proof cache_respected_write as W.
  unfold update. apply keeps_try_catch; [apply _| |].
  - apply keeps_bind; [apply _|apply (keeps_findById _ W)|].
    intros [ex|]; [|apply keeps_throw, _].
    apply keeps_bind; [apply _| |].
    + unfold update_check. destruct (upd_email d) as [e|]; [|apply keeps_ret, _].
      destruct (_ && _); [|apply keeps_ret, _].
      apply keeps_bind; [apply _|apply (keeps_findByEmail _ W)|].
      intros [w|]; [apply keeps_throw, _|apply keeps_ret, _].
    + intros _. unfold update_write.
      apply keeps_bind; [apply _|apply (keeps_invalidateCacheUser _ W)|].
      intros _. apply keeps_bind; [apply _|apply keeps_cache_prisma|].
      intros u'. apply keeps_bind; [apply _|apply (keeps_setCacheUser _ W)|].
      intros _. apply keeps_ret, _.
  - intros e. destruct e; apply keeps_throw, _.
Qed.

Lemma keeps_delete i : keeps cache_respected (delete i).
Proof.
  pose proof cache_respected_write as W.
  unfold delete. apply keeps_try_catch; [apply _| |].
  - apply keeps_bind; [apply _|apply (keeps_findById _ W)|].
    intros [ex|]; [|apply keeps_throw, _].
    apply keeps_bind; [apply _|apply (keeps_invalidateCacheUser _ W)|].
    intros _. apply keeps_cache_prisma.
  - intros e. destruct e; apply keeps_throw, _.
Qed.

Lemma keeps_softDelete now i : keeps cache_respected (softDelete now i).
Proof.
  pose proof cache_respected_write as W.
  unfold softDelete. apply keeps_try_catch; [apply _| |].
  - apply keeps_bind; [apply _|apply (keeps_findById _ W)|].
    intros [ex|]; [|apply keeps_throw, _].
    apply keeps_bind; [apply _|apply (keeps_invalidateCacheUser _ W)|].
    intros _. apply keeps_bind; [apply _|apply keeps_cache_prisma|].
    intros _. apply keeps_ret, _.
  - intros e. destruct e; apply keeps_throw, _.
Qed.

Lemma keeps_exec c : keeps cache_respected (exec c).
Proof.
  pose proof cache_respected_write as W.
  destruct c; simpl; (apply keeps_bind; [apply _| |intros; apply keeps_ret, _]).
  - apply keeps_create.
  - apply (keeps_findById _ W).
  - apply (keeps_findByEmail _ W).
  - apply (keeps_findMany _).
  - apply keeps_update.
  - apply keeps_delete.
  - apply keeps_softDelete.
Qed.

(** X1: no repository call changes the connection flag, and while the
    Redis client is not connected no call writes the cache, whatever the
    state and whatever the outcome of the call. *)
Theorem calls_respect_connection (c : call) (s : state) :
  isConnected (snd (exec c s)) = isConnected s /\
  (isConnected s = false -> cache (snd (exec c s)) = cache s).
Proof. exact (keeps_exec c s). Qed.

(** X2: the reads never write the table, whatever the state and the
    outcome: [findById], [findByEmail] and [findMany] of the repository,
    [getUserById], [getUserByEmail], [getUsers] and [searchUsers] of the
    service. *)
Theorem reads_leave_table (s : state) :
  (forall i, rows (snd (findById i s)) = rows s) /\
  (forall e, rows (snd (findByEmail e s)) = rows s) /\
  (forall p, rows (snd (findMany p s)) = rows s) /\
  (forall i, rows (snd (getUserById i s)) = rows s) /\
  (forall e, rows (snd (getUserByEmail e s)) = rows s) /\
  (forall p, rows (snd (getUsers p s)) = rows s) /\
  (forall qs p, rows (snd (searchUsers qs p s)) = rows s).
Proof.
  pose proof same_rows_write as W.
  assert (Hgu : forall p, keeps same_rows (getUsers p)).
  { intros p. unfold getUsers. apply keeps_bind; [apply _|apply (keeps_findMany _)|].
    intros [us n]. apply keeps_ret, _. }
  repeat split.
  - intros i. apply (keeps_findById same_rows W).
  - intros e. apply (keeps_findByEmail same_rows W).
  - intros p. apply (keeps_findMany same_rows).
  - intros i. assert (H : keeps same_rows (getUserById i)); [|apply H].
    unfold getUserById. apply keeps_bind; [apply _|apply (keeps_findById _ W)|].
    intros [u|]; [apply keeps_ret, _|apply keeps_throw, _].
  - intros e. assert (H : keeps same_rows (getUserByEmail e)); [|apply H].
    unfold getUserByEmail. apply keeps_bind; [apply _|apply (keeps_findByEmail _ W)|].
    intros o. apply keeps_ret, _.
  - intros p. apply Hgu.
  - intros qs p. apply Hgu.
Qed.

(** ** Error kinds *)

Lemma try_catch_throws_only {A} (m : M A) (h : exn -> M A) allowed s :
  (forall e s', throws_only allowed (fst (h e s'))) ->
  throws_only allowed (fst (try_catch m h s)).
Proof.
  intros H. unfold try_catch. destruct (m s) as [[a|e] s']; simpl; [exact I|].
  apply H.
Qed.

(** X3: the errors a repository operation can raise are the ones of
    its contract, in every state: a Prisma error never escapes.
    [create] raises ConflictError or DatabaseError; the three reads only
    DatabaseError; [update] NotFoundError, ConflictError or
    DatabaseError; [delete] and [softDelete] NotFoundError or
    DatabaseError. *)
Theorem repository_error_kinds (s : state) :
  (forall env d,
     throws_only [ConflictError; DatabaseError] (fst (create env d s))) /\
  (forall i, throws_only [DatabaseError] (fst (findById i s))) /\
  (forall e, throws_only [DatabaseError] (fst (findByEmail e s))) /\
  (forall p, throws_only [DatabaseError] (fst (findMany p s))) /\
  (forall now i d,
     throws_only [NotFoundError; ConflictError; DatabaseError]
       (fst (update now i d s))) /\
  (forall i, throws_only [NotFoundError; DatabaseError] (fst (delete i s))) /\
  (forall now i,
     throws_only [NotFoundError; DatabaseError] (fst (softDelete now i s))).
Proof.
  repeat split; intros; apply try_catch_throws_only; intros e0 s';
    try (destruct e0; simpl; tauto).
Qed.

(** ** The writes, when they succeed and when they find nothing *)

Lemma ceq_trans a b c : ceq a b = true -> ceq b c = true -> ceq a c = true.
Proof. rewrite !ceq_true. congruence. Qed.



Lemma fresh_prisma_create u rs :
  fresh (id u) (email u) rs -> prisma_create u rs = PReturn (rs ++ [u]).
Proof.
  intros H. unfold prisma_create, violates_unique.
  assert (E : existsb (fun x => ceq (id x) (id u) || ceq (email x) (email u)) rs
              = false).
  { destruct (existsb _ rs) eqn:E; [|reflexivity].
    apply existsb_exists in E as (x & Hx & Hor).
    destruct (H x Hx) as [H1 H2]. rewrite H1, H2 in Hor. discriminate. }
  now rewrite E.
Qed.

Lemma fresh_findUnique_by_email i e rs :
  fresh i e rs -> findUnique_by_email e rs = None.
Proof.
  intros H. apply find_none_intro. intros x Hx.
  now rewrite (proj2 (H x Hx)).
Qed.

(** A [create] whose id and email no row carries. *)
Lemma create_fresh_run env d s :
  inv s -> fresh (env_uuid env) (new_email d) (rows s) ->
  exists s', create env d s = (Return (new_row env d), s') /\
             rows s' = rows s ++ [new_row env d] /\
             isConnected s' = isConnected s /\ inv s'.
Proof.
  intros Hinv Hfresh.
  destruct (create_refines env d s Hinv) as (s' & E & Hrows & Hc & Hinv').
  unfold Store.create in E, Hrows.
  rewrite (fresh_findUnique_by_email _ _ _ Hfresh) in E, Hrows.
  rewrite (fresh_prisma_create (new_row env d) (rows s) Hfresh) in E, Hrows.
  exists s'. auto.
Qed.


(** A successful [softDelete], step by step. *)
Lemma softDelete_ok_run now i s s' :
  inv s -> softDelete now i s = (Return tt, s') ->
  exists ex l1 l2,
    rows s = l1 ++ ex :: l2 /\ deleted_at ex = None /\ ceq (id ex) i = true /\
    rows s' = l1 ++ apply_update now (soft_delete_data now) ex :: l2 /\
    inv s' /\ isConnected s' = isConnected s.
Proof.
  intros Hinv Hrun. pose proof (softDelete_run now i s Hinv) as H.
  destruct (findUnique_by_id i (rows s)) as [ex|] eqn:Hf;
    [|rewrite H in Hrun; discriminate].
  apply findUnique_by_id_some in Hf as (Hex & Hc & Hd).
  destruct H as (s1 & (R1 & R2 & R3) & E). rewrite E in Hrun. clear E.
  destruct (prisma_update_spec now i (soft_delete_data now) (rows s) ex
              (proj1 Hinv) Hex Hc)
    as [(Hp & e & x & He & _)|(l1 & l2 & Hrs & _ & _ & Hp & Hok)];
    [discriminate He|].
  rewrite Hp in Hrun. injection Hrun as <-.
  exists ex, l1, l2. split; [exact Hrs|]. split; [exact Hd|].
  split; [exact Hc|]. split; [reflexivity|]. split.
  - apply inv_after_write; auto. congruence.
  - simpl. now rewrite isConnected_cache_drop.
Qed.

(** A successful [delete], step by step. *)
Lemma delete_ok_run i s s' :
  inv s -> delete i s = (Return tt, s') ->
  exists ex l1 l2,
    rows s = l1 ++ ex :: l2 /\ deleted_at ex = None /\ ceq (id ex) i = true /\
    rows s' = l1 ++ l2 /\ inv s' /\ isConnected s' = isConnected s.
Proof.
  intros Hinv Hrun. pose proof (delete_run i s Hinv) as H.
  destruct (findUnique_by_id i (rows s)) as [ex|] eqn:Hf;
    [|rewrite H in Hrun; discriminate].
  apply findUnique_by_id_some in Hf as (Hex & Hc & Hd).
  destruct H as (s1 & (R1 & R2 & R3) & E). rewrite E in Hrun. clear E.
  destruct (prisma_delete_spec i (rows s) ex (proj1 Hinv) Hex Hc)
    as (l1 & l2 & Hrs & _ & Hp & Hok).
  rewrite Hp in Hrun. injection Hrun as <-.
  exists ex, l1, l2. split; [exact Hrs|]. split; [exact Hd|].
  split; [exact Hc|]. split; [reflexivity|]. split.
  - apply inv_after_remove; auto. congruence.
  - simpl. now rewrite isConnected_cache_drop.
Qed.

Lemma in_middle {A} (l1 l2 : list A) (x y : A) :
  In y (l1 ++ x :: l2) -> y = x \/ In y (l1 ++ l2).
Proof.
  intros H. apply in_app_or in H as [H|[H|H]]; auto; right; apply in_or_app; auto.
Qed.

Lemma in_around {A} (l1 l2 : list A) (x y : A) :
  In y (l1 ++ l2) -> In y (l1 ++ x :: l2).
Proof.
  intros H. apply in_app_or in H as [H|H]; apply in_or_app; simpl; auto.
Qed.

(** X4: a [create] whose email and generated id no row of the table
    carries returns the new row (active, not deleted, holding the digest
    and not the password of the request), appends it to the table, and
    [findByEmail] and [findById] then resolve to it. *)
Theorem create_then_find (env : create_env) (d : CreateUserRequest) (s : state) :
  inv s -> fresh (env_uuid env) (new_email d) (rows s) ->
  exists s',
    create env d s = (Return (new_row env d), s') /\
    rows s' = rows s ++ [new_row env d] /\
    fst (findByEmail (new_email d) s') = Return (Some (new_row env d)) /\
    fst (findById (env_uuid env) s') = Return (Some (new_row env d)).
Proof.
  intros Hinv Hfresh.
  destruct (create_fresh_run env d s Hinv Hfresh) as (s' & E & Hrows & _ & Hinv').
  exists s'. split; [exact E|]. split; [exact Hrows|].
  assert (Hin : In (new_row env d) (rows s')).
  { rewrite Hrows. apply in_or_app. right. now left. }
  split.
  - destruct (findByEmail_inv (new_email d) s' Hinv') as (s2 & E2 & _).
    rewrite E2. simpl. f_equal.
    apply (findUnique_by_email_row (rows s') (new_row env d)); auto. apply Hinv'.
  - destruct (findById_inv (env_uuid env) s' Hinv') as (s2 & E2 & _).
    rewrite E2. simpl. f_equal.
    apply (findUnique_by_id_row (rows s') (new_row env d)); auto. apply Hinv'.
Qed.




(** ** The table along a run *)

Lemma refines_rows {A} (m : M A) f s :
  refines m f s -> rows (snd (m s)) = snd (f (rows s)).
Proof. intros (s' & E & H & _). now rewrite E. Qed.

Lemma exec_rows c s : inv s -> rows (snd (exec c s)) = store_step c (rows s).
Proof.
  intros Hinv. destruct c as [env dd|i|e|p|now i d|i|now i]; simpl.
  - apply (refines_rows _ _ _ (refines_map AUser _ _ _ (create_refines env dd s Hinv))).
  - apply (refines_rows _ _ _ (refines_map AFound _ _ _ (findById_refines i s Hinv))).
  - apply (refines_rows _ _ _ (refines_map AFound _ _ _ (findByEmail_refines e s Hinv))).
  - apply (refines_rows _ _ _
             (refines_map (fun r => APage (fst r) (snd r)) _ _ _
                (findMany_refines p s Hinv))).
  - apply (refines_rows _ _ _ (refines_map AUser _ _ _ (update_refines now i d s Hinv))).
  - apply (refines_rows _ _ _
             (refines_map (fun _ => ADone) _ _ _ (delete_refines i s Hinv))).
  - apply (refines_rows _ _ _
             (refines_map (fun _ => ADone) _ _ _ (softDelete_refines now i s Hinv))).
Qed.

Lemma store_step_keeps_deleted c rs r t :
  store_ok rs -> In r rs -> deleted_at r = Some t -> In r (store_step c rs).
Proof.
  intros Hok Hr Hd.
  assert (Hlive : forall i ex, findUnique_by_id i rs = Some ex ->
            In ex rs /\ ceq (id ex) i = true /\ r <> ex).
  { intros i ex Hf. apply findUnique_by_id_some in Hf as (H1 & H2 & H3).
    repeat split; auto. intros ->. congruence. }
  assert (Hkeep : forall ex l1 l2 x, rs = l1 ++ ex :: l2 -> r <> ex ->
            In r (l1 ++ x :: l2)).
  { intros ex l1 l2 x E Hne. rewrite E in Hr.
    destruct (in_middle _ _ _ _ Hr) as [->|H]; [congruence|].
    now apply in_around. }
  destruct c as [env dd|i|e|p|now i d|i|now i]; simpl; auto.
  - unfold Store.create. destruct (findUnique_by_email _ rs); [exact Hr|].
    unfold prisma_create. destruct (violates_unique _ rs); simpl; [exact Hr|].
    apply in_or_app. now left.
  - unfold Store.update. destruct (findUnique_by_id i rs) as [ex|] eqn:Hf;
      [|exact Hr].
    destruct (Hlive _ _ Hf) as (Hex & Hc & Hne).
    destruct (email_taken d ex rs); [exact Hr|].
    destruct (prisma_update_spec now i (update_data d) rs ex Hok Hex Hc)
      as [(Hp & _)|(l1 & l2 & Hrs & _ & _ & Hp & _)]; rewrite Hp; simpl;
      [exact Hr|]. eapply Hkeep; eauto.
  - unfold Store.delete. destruct (findUnique_by_id i rs) as [ex|] eqn:Hf;
      [|exact Hr].
    destruct (Hlive _ _ Hf) as (Hex & Hc & Hne).
    destruct (prisma_delete_spec i rs ex Hok Hex Hc)
      as (l1 & l2 & Hrs & _ & Hp & _). rewrite Hp. simpl.
    rewrite Hrs in Hr. destruct (in_middle _ _ _ _ Hr) as [->|H]; [congruence|].
    exact H.
  - unfold Store.softDelete. destruct (findUnique_by_id i rs) as [ex|] eqn:Hf;
      [|exact Hr].
    destruct (Hlive _ _ Hf) as (Hex & Hc & Hne).
    destruct (prisma_update_spec now i (soft_delete_data now) rs ex Hok Hex Hc)
      as [(Hp & _)|(l1 & l2 & Hrs & _ & _ & Hp & _)]; rewrite Hp; simpl;
      [exact Hr|]. eapply Hkeep; eauto.
Qed.

(** X8: on a table with unique keys and a cache that mirrors it, and
    as long as the connection flag is not switched from outside, a
    soft-deleted row is final.  Whatever sequence of repository calls
    follows, the row stays in the table exactly as it is: no operation
    updates it, restores it or removes it.  (A cache entry that
    survived a soft delete made while the client was not ready lets
    [update] and [delete], which select by id alone, reach the row once
    the client is ready again: such runs are outside the condition.) *)
Theorem soft_deleted_rows_stay (cs : list call) (s : state) (r : user) (t : Z) :
  inv s -> In r (rows s) -> deleted_at r = Some t ->
  In r (rows (snd (run cs s))).
Proof.
  revert s. induction cs as [|c cs IH]; intros s Hinv Hr Hd; simpl; [exact Hr|].
  pose proof (exec_inv c s Hinv) as Hinv1.
  pose proof (exec_rows c s Hinv) as Hrows.
  destruct (exec c s) as [o s1]. simpl in *.
  assert (Hr1 : In r (rows s1)).
  { rewrite Hrows. eapply store_step_keeps_deleted; eauto. apply Hinv. }
  specialize (IH s1 Hinv1 Hr1 Hd). now destruct (run cs s1).
Qed.

(** X9: along any sequence of repository calls the table keeps its ids
    and its emails unique (letter case ignored, soft-deleted rows
    included), and every entry a connected cache holds is a live row of
    the table, filed under the id key or the email key of that row. *)
Theorem cache_mirrors_table (cs : list call) (s : state) :
  inv s ->
  NoDup (List.map kid (rows (snd (run cs s)))) /\
  NoDup (List.map kem (rows (snd (run cs s)))) /\
  (isConnected (snd (run cs s)) = true ->
   forall k v, cache (snd (run cs s)) !! k = Some v ->
     In v (rows (snd (run cs s))) /\ deleted_at v = None /\
     (k = getCacheKey (id v) KId \/ k = getCacheKey (email v) KEmail)).
Proof.
  intros Hinv. destruct (run_inv cs s Hinv) as [[H1 H2] H3]. auto.
Qed.

(** ** Updates that are refused *)




(** ** Reading twice, and the cache helpers *)

Lemma cache_put_twice u s : cache_put u (cache_put u s) = cache_put u s.
Proof.
  destruct s as [rs c [|]]; unfold cache_put; simpl; [|reflexivity].
  unfold set_cache. simpl. f_equal. apply map_eq. intros k.
  rewrite !lookup_insert. repeat case_decide; reflexivity.
Qed.

(** X13: reading twice is reading once.  When [findById] (or
    [findByEmail]) has resolved, the same call on the state it left
    resolves to the same answer and leaves that state unchanged. *)
Theorem repeated_read (s s1 : state) (i : string) (o : outcome (option user)) :
  inv s ->
  (findById i s = (o, s1) -> findById i s1 = (o, s1)) /\
  (findByEmail i s = (o, s1) -> findByEmail i s1 = (o, s1)).
Proof.
  intros Hinv. split; intros H.
  - destruct (findById_inv i s Hinv) as (s' & E & Hr & Hs).
    rewrite E in H. injection H as <- <-.
    destruct Hs as [->|(u & Hu & Hl & ->)]; [exact E|].
    destruct Hr as (R1 & R2 & R3).
    destruct (findById_inv i (cache_put u s) R3) as (s2 & E2 & _ & Hs2).
    rewrite R1 in E2. rewrite E2. f_equal.
    destruct Hs2 as [->|(u2 & Hu2 & _ & ->)]; [reflexivity|].
    rewrite R1, Hu in Hu2. injection Hu2 as <-. apply cache_put_twice.
  - destruct (findByEmail_inv i s Hinv) as (s' & E & Hr & Hs).
    rewrite E in H. injection H as <- <-.
    destruct Hs as [->|(u & Hu & Hl & ->)]; [exact E|].
    destruct Hr as (R1 & R2 & R3).
    destruct (findByEmail_inv i (cache_put u s) R3) as (s2 & E2 & _ & Hs2).
    rewrite R1 in E2. rewrite E2. f_equal.
    destruct Hs2 as [->|(u2 & Hu2 & _ & ->)]; [reflexivity|].
    rewrite R1, Hu in Hu2. injection Hu2 as <-. apply cache_put_twice.
Qed.

(** X14: two cache keys are the same only for the same identifier and
    the same kind: an id key never is an email key, whatever the two
    strings. *)
Theorem cache_keys_distinct (a b : string) (t t' : key_type) :
  getCacheKey a t = getCacheKey b t' <-> a = b /\ t = t'.
Proof.
  split; [apply getCacheKey_inj|]. intros [-> ->]. reflexivity.
Qed.

(** X15: on a connected client [setCacheUser] makes [getCacheUser]
    answer with the user under its id and under its email, and
    [invalidateCacheUser] makes it answer with null under both; neither
    touches any other key. *)
Theorem cache_helpers_round_trip (u : user) (s : state) :
  isConnected s = true ->
  let s1 := snd (setCacheUser u s) in
  let s2 := snd (invalidateCacheUser u s1) in
  fst (getCacheUser (id u) KId s1) = Return (Some u) /\
  fst (getCacheUser (email u) KEmail s1) = Return (Some u) /\
  fst (getCacheUser (id u) KId s2) = Return None /\
  fst (getCacheUser (email u) KEmail s2) = Return None /\
  (forall k, k <> getCacheKey (id u) KId -> k <> getCacheKey (email u) KEmail ->
             cache s1 !! k = cache s !! k /\ cache s2 !! k = cache s !! k).
Proof.
  intros Hon s1 s2. unfold s2, s1.
  rewrite !setCacheUser_run, !invalidateCacheUser_run, !getCacheUser_run. simpl.
  split; [now rewrite cache_put_look_id|].
  split; [now rewrite cache_put_look_email|].
  split; [now rewrite cache_drop_look_id|].
  split; [now rewrite cache_drop_look_email|].
  intros k H1 H2. destruct s as [rs c b]. simpl in Hon. subst b.
  unfold cache_drop, cache_put. simpl.
  rewrite !lookup_delete_ne, !lookup_insert_ne by congruence. auto.
Qed.

(** ** Point lookups of the service *)


(** ** Pages *)

Lemma take_add_drop {A} (n m : nat) (l : list A) :
  firstn (n + m) l = firstn n l ++ firstn m (skipn n l).
Proof.
  revert l. induction n as [|n IH]; intros l; simpl; [reflexivity|].
  destruct l as [|a l]; simpl; [now rewrite firstn_nil|]. now rewrite IH.
Qed.

Lemma has_next_iff pg lim tot tp :
  0 < lim -> (tp - 1) * lim < tot <= tp * lim ->
  (pg <? tp) = true <-> pg * lim < tot.
Proof. intros Hl Hb. rewrite Z.ltb_lt. split; intros H; nia. Qed.

(** X17: for a page number at least 1 and a limit at least 1,
    [getUsers] reports [has_next] exactly when matching rows remain
    after the page and [has_prev] exactly when the page is not the
    first; the page holds [limit] rows, or what is left of the matching
    rows after the skipped ones, none when the page lies past the
    end. *)
Theorem getUsers_page_shape (s : state) (p : UserSearchParams) :
  let pg := default 1 (page p) in
  let lim := default 10 (limit p) in
  let tot := prisma_count (q p) (rows s) in
  1 <= pg -> 1 <= lim ->
  exists resp,
    getUsers p s = (Return resp, s) /\
    total (pagination resp) = tot /\
    (has_next (pagination resp) = true <-> pg * lim < tot) /\
    (has_prev (pagination resp) = true <-> 1 < pg) /\
    Z.of_nat (length (data resp)) = Z.min lim (Z.max 0 (tot - (pg - 1) * lim)).
Proof.
  intros pg lim tot Hpg Hlim.
  assert (Hfm := findMany_page s p). fold pg lim in Hfm.
  destruct (ceil_div_spec tot lim) as (tp & Htp & Hb); [lia|].
  eexists. split.
  { unfold getUsers, bind. fold pg lim. rewrite Hfm by nia. reflexivity. }
  simpl. fold tot. rewrite Htp. simpl.
  split; [reflexivity|]. split; [now apply has_next_iff; [lia|]|].
  split; [apply Z.ltb_lt|].
  rewrite length_map, length_take, length_drop.
  pose proof (selected_length (q p) (default Ccreated_at (sort_by p))
                (default desc (sort_order p)) (rows s)) as Hlen.
  fold tot in Hlen. assert (Hs : 0 <= (pg - 1) * lim) by nia.
  remember ((pg - 1) * lim) as sk. lia.
Qed.

Lemma page_rows_findMany s p k :
  1 <= k -> 0 <= default 10 (limit p) ->
  page_rows (fst (findMany (with_page p k) s))
  = firstn (Z.to_nat (default 10 (limit p)))
      (skipn (Z.to_nat ((k - 1) * default 10 (limit p)))
         (selected (q p) (default Ccreated_at (sort_by p))
            (default desc (sort_order p)) (rows s))).
Proof.
  intros Hk Hl. rewrite findMany_page; simpl; [reflexivity|nia|exact Hl].
Qed.

(** * The code around the repository *)

(** ** The delete handler *)

Lemma store_softDelete_length now i rs :
  store_ok rs -> length (snd (Store.softDelete now i rs)) = length rs.
Proof.
  intros Hok. unfold Store.softDelete.
  destruct (findUnique_by_id i rs) as [ex|] eqn:Hf; [|reflexivity].
  apply findUnique_by_id_some in Hf as (Hex & Hc & _).
  destruct (prisma_update_spec now i (soft_delete_data now) rs ex Hok Hex Hc)
    as [(Hp & _)|(l1 & l2 & Hrs & _ & _ & Hp & _)]; rewrite Hp; simpl;
    [reflexivity|].
  rewrite Hrs, !length_app. reflexivity.
Qed.

(** X19: the delete handler removes a row only when the query carries
    [permanent] as exactly the string [true].  With any other value, or
    none, the table keeps every row whatever the outcome, and a
    successful call answers "User deactivated successfully"; with
    [permanent=true] a successful call leaves one row less and answers
    "User deleted permanently". *)
Theorem delete_handler_flag (now : Z) (i : string) (permanent : query_value)
    (s : state) :
  inv s ->
  (permanent <> QString "true" ->
   length (rows (snd (controller_deleteUser now i permanent s)))
   = length (rows s) /\
   forall msg s', controller_deleteUser now i permanent s = (Return msg, s') ->
                  msg = "User deactivated successfully") /\
  (permanent = QString "true" ->
   forall msg s', controller_deleteUser now i permanent s = (Return msg, s') ->
                  S (length (rows s')) = length (rows s) /\
                  msg = "User deleted permanently").
Proof.
  intros Hinv. split.
  - intros Hp.
    assert (Hsoft : soft_flag permanent = true).
    { destruct permanent as [|x|]; simpl; auto.
      apply negb_true_iff, String.eqb_neq. congruence. }
    unfold controller_deleteUser, deleteUser, bind. rewrite Hsoft.
    pose proof (refines_rows _ _ _ (softDelete_refines now i s Hinv)) as Hr.
    destruct (softDelete now i s) as [[[]|e] s1]; simpl in *;
      (split; [rewrite Hr; apply store_softDelete_length, Hinv|]);
      intros msg s' H; inversion H; reflexivity.
  - intros -> msg s' H. unfold controller_deleteUser, deleteUser, bind in H.
    simpl in H. destruct (delete i s) as [[[]|e] s1] eqn:Hd; [|discriminate].
    injection H as <- <-.
    destruct (delete_ok_run _ _ _ Hinv Hd) as (ex & l1 & l2 & Hrs & _ & _ & Hr & _).
    rewrite Hrs, Hr, !length_app. simpl. split; [lia|reflexivity].
Qed.

(** ** The seed script *)

Lemma find_app_last {A} (P : A -> bool) (l : list A) (x : A) :
  List.find P l = None -> P x = true -> List.find P (l ++ [x]) = Some x.
Proof.
  induction l as [|a l IH]; simpl; intros H Hx; [now rewrite Hx|].
  destruct (P a); [discriminate|]. auto.
Qed.

(** X20: seeding is idempotent.  When the script has run, running it
    again (at another time, with another generated id and digest)
    leaves the table as it is and prints the same count; the first run
    keeps the rows that were there and adds at most the admin row, and
    adds none when a row carries the admin email already, soft-deleted
    or not. *)
Theorem seed_idempotent (env env' : create_env) (rs rs1 : list user) (n : Z) :
  seed_main env rs = PReturn (rs1, n) ->
  seed_main env' rs1 = PReturn (rs1, n) /\
  n = Z.of_nat (length rs1) /\
  (rs1 = rs \/ rs1 = rs ++ [admin_row env]) /\
  ((exists x, In x rs /\ ceq (email x) "admin@example.com" = true) -> rs1 = rs).
Proof.
  unfold seed_main, findUnique_any_email. intros H.
  destruct (List.find _ rs) as [x|] eqn:Hf.
  - injection H as <- <-. rewrite Hf. auto.
  - unfold prisma_create in H.
    destruct (violates_unique (admin_row env) rs); [discriminate|].
    injection H as <- <-.
    rewrite (find_app_last _ rs (admin_row env) Hf) by apply ceq_refl.
    split; [reflexivity|]. split; [reflexivity|]. split; [now right|].
    intros (x & Hx & Hc). pose proof (find_none _ _ Hf x Hx) as Hn.
    simpl in Hn. congruence.
Qed.

(** ** The cache key builder *)

Lemma append_assoc (a b c : string) : (a +:+ b) +:+ c = a +:+ (b +:+ c).
Proof.
  induction a as [|x a IH]; [reflexivity|].
  change (String x ((a +:+ b) +:+ c) = String x (a +:+ (b +:+ c))).
  now rewrite IH.
Qed.

(** X21: the keys of [CacheKeyBuilder] do not collide across its
    families: a user key, a session key and a token key are pairwise
    different, and within a family two keys are the same only for the
    same kind and the same identifier.  The general [build] does not
    escape colons: moving a colon between the service and the type
    gives the same key. *)
Theorem key_builder_families (a b : string) :
  (forall t t', CacheKeyBuilder.user t a = CacheKeyBuilder.user t' b
                <-> t = t' /\ a = b) /\
  (CacheKeyBuilder.session a = CacheKeyBuilder.session b <-> a = b) /\
  (forall t t', CacheKeyBuilder.token t a = CacheKeyBuilder.token t' b
                <-> t = t' /\ a = b) /\
  (forall t, CacheKeyBuilder.user t a <> CacheKeyBuilder.session b) /\
  (forall t t', CacheKeyBuilder.user t a <> CacheKeyBuilder.token t' b) /\
  (forall t, CacheKeyBuilder.session a <> CacheKeyBuilder.token t b) /\
  (forall service type,
     CacheKeyBuilder.build (service +:+ ":" +:+ a) type b
     = CacheKeyBuilder.build service (a +:+ ":" +:+ type) b).
Proof.
  assert (U : forall t t', CacheKeyBuilder.user t a = CacheKeyBuilder.user t' b
                           -> t = t' /\ a = b).
  { intros t t' H. destruct t, t'; cbn in H; inversion H; auto. }
  assert (T : forall t t', CacheKeyBuilder.token t a = CacheKeyBuilder.token t' b
                           -> t = t' /\ a = b).
  { intros t t' H. destruct t, t'; cbn in H; inversion H; auto. }
  split; [intros t t'; split; [apply U|intros [-> ->]; reflexivity]|].
  split; [split; [intros H; cbn in H; now inversion H|intros ->; reflexivity]|].
  split; [intros t t'; split; [apply T|intros [-> ->]; reflexivity]|].
  split; [intros t H; destruct t; cbn in H; inversion H|].
  split; [intros t t' H; destruct t, t'; cbn in H; inversion H|].
  split; [intros t H; destruct t; cbn in H; inversion H|].
  intros service type. unfold CacheKeyBuilder.build.
  simpl. rewrite !append_assoc. reflexivity.
Qed.

(** ** The validation middleware *)

Lemma messages_at_cons p i issues :
  messages_at p (i :: issues)
  = if String.eqb (join_path (issue_path i)) p
    then issue_message i :: messages_at p issues
    else messages_at p issues.
Proof.
  unfold messages_at. simpl. now destruct (String.eqb _ p).
Qed.

Lemma collect_issues_lookup issues : forall acc m,
  collect_issues acc issues = Some m ->
  forall p, m !! p = match acc !! p, messages_at p issues with
                     | Some a, l => Some (a ++ l)
                     | None, [] => None
                     | None, l => Some l
                     end.
Proof.
  induction issues as [|i issues IH]; intros acc m H p.
  - simpl in H. injection H as <-. unfold messages_at. simpl.
    destruct (acc !! p); [now rewrite app_nil_r|reflexivity].
  - simpl in H. destruct (add_issue acc i) as [acc'|] eqn:Ha; [|discriminate].
    rewrite (IH acc' m H p), messages_at_cons. clear IH H.
    unfold add_issue in Ha. set (k := join_path (issue_path i)) in *.
    destruct (String.eqb_spec k p) as [->|Hne].
    + destruct (acc !! p) as [msgs|] eqn:Hk.
      * injection Ha as <-. rewrite lookup_insert_eq.
        now rewrite <- app_assoc.
      * destruct (bool_decide _); [discriminate|]. injection Ha as <-.
        rewrite lookup_insert_eq. reflexivity.
    + assert (Hsame : acc' !! p = acc !! p).
      { destruct (acc !! k) as [msgs|].
        - injection Ha as <-. now rewrite lookup_insert_ne.
        - destruct (bool_decide _); [discriminate|]. injection Ha as <-.
          now rewrite lookup_insert_ne. }
      now rewrite Hsame.
Qed.

Lemma collect_issues_none issues : forall acc,
  (forall k, is_Some (acc !! k) -> ~ In k inherited_properties) ->
  collect_issues acc issues = None <->
  exists i, In i issues /\ In (join_path (issue_path i)) inherited_properties.
Proof.
  induction issues as [|i issues IH]; intros acc Hacc; simpl.
  - split; [discriminate|]. intros (i & [] & _).
  - unfold add_issue. set (k := join_path (issue_path i)).
    destruct (acc !! k) as [msgs|] eqn:Hk.
    + rewrite IH.
      * split; intros (j & Hj & Hin); [eauto|].
        destruct Hj as [<-|Hj]; [|eauto].
        exfalso. apply (Hacc k); eauto.
      * intros k' Hs. rewrite lookup_insert in Hs. case_decide; subst; eauto.
    + destruct (bool_decide (In k inherited_properties)) eqn:Hb.
      * apply bool_decide_eq_true in Hb. split; [eauto|reflexivity].
      * apply bool_decide_eq_false in Hb. rewrite IH.
        -- split; intros (j & Hj & Hin); [eauto|].
           destruct Hj as [<-|Hj]; [contradiction|eauto].
        -- intros k' Hs. rewrite lookup_insert in Hs. case_decide; subst; eauto.
Qed.

(** X22: the [errors] record of a 400 response files every message of
    the ZodError under the dotted path of its issue, the messages of one
    path in the order of the issues, and has no other key.  Building it
    throws, instead, exactly when the path of some issue is the name of
    a property every object inherits (such as [constructor]). *)
Theorem validation_errors_grouped (issues : list zod_issue) :
  (validation_errors issues = None <->
   exists i, In i issues /\
             In (join_path (issue_path i)) inherited_properties) /\
  (forall errors, validation_errors issues = Some errors ->
   forall p, errors !! p = match messages_at p issues with
                           | [] => None
                           | msgs => Some msgs
                           end).
Proof.
  split.
  - apply collect_issues_none. intros k [x Hx]. rewrite lookup_empty in Hx.
    discriminate.
  - intros errors H p. rewrite (collect_issues_lookup _ _ _ H p).
    now rewrite lookup_empty.
Qed.

(** ** The authentication middleware *)

Lemma append_cons x a r : String x a +:+ r = String x (a +:+ r).
Proof. reflexivity. Qed.

Lemma append_nil_r a : a +:+ "" = a.
Proof.
  induction a as [|x a IH]; [reflexivity|]. rewrite append_cons. now rewrite IH.
Qed.

Lemma split_pieces_plain sep s :
  has_char sep s = false -> split_pieces sep s = (s, []).
Proof.
  induction s as [|x s IH]; simpl; [reflexivity|]. intros H.
  apply orb_false_elim in H as [H1 H2]. rewrite (IH H2), H1. reflexivity.
Qed.

Lemma js_split_app sep a b :
  has_char sep a = false ->
  js_split sep (a +:+ String sep b) = a :: js_split sep b.
Proof.
  unfold js_split. induction a as [|x a IH]; intros H.
  - change ("" +:+ String sep b) with (String sep b). simpl.
    rewrite Ascii.eqb_refl. now destruct (split_pieces sep b).
  - simpl in H. apply orb_false_elim in H as [H1 H2]. specialize (IH H2).
    rewrite append_cons. simpl.
    destruct (split_pieces sep (a +:+ String sep b)) as [piece rest].
    rewrite H1. destruct (split_pieces sep b). now inversion IH.
Qed.

Lemma js_split_plain sep s : has_char sep s = false -> js_split sep s = [s].
Proof. intros H. unfold js_split. now rewrite split_pieces_plain. Qed.

(** X23: Basic authentication takes the user name and the password
    from the first two pieces of the decoded credentials, cut at the
    colons.  For a header [Basic c] whose credentials decode to
    [u:p] followed by nothing or by a colon and more, with [u] and [p]
    not empty and free of colons, the request passes with user name [u]
    and password [p]: what follows a second colon is dropped. *)
Theorem basic_auth_credentials (env : auth_env) (c u p tail : string) :
  c <> "" -> has_char " " c = false ->
  decode_base64 env c = u +:+ ":" +:+ p +:+ tail ->
  u <> "" -> p <> "" -> has_char ":" u = false -> has_char ":" p = false ->
  (tail = "" \/ exists rest, tail = ":" +:+ rest) ->
  basicAuthMiddleware env (Some ("Basic " +:+ c)) = Next (Some (BasicUser u p)).
Proof.
  intros Hc Hsp Hdec Hu Hp Hcu Hcp Htail. unfold basicAuthMiddleware.
  change (String.eqb ("Basic " +:+ c) "") with false. cbv iota.
  assert (Hpre : String.prefix "Basic " ("Basic " +:+ c) = true)
    by (apply prefix_spec; eauto).
  rewrite Hpre. cbv [negb]. cbv iota.
  change ("Basic " +:+ c) with ("Basic" +:+ String " " c).
  rewrite (js_split_app " " "Basic" c eq_refl), (js_split_plain " " c Hsp).
  simpl nth_error. destruct c as [|x c]; [congruence|].
  rewrite Hdec. change (":" +:+ p +:+ tail) with (String ":" (p +:+ tail)).
  rewrite (js_split_app ":" u (p +:+ tail) Hcu).
  assert (Hsnd : exists more, js_split ":" (p +:+ tail) = p :: more).
  { destruct Htail as [->|[rest ->]].
    - rewrite append_nil_r, (js_split_plain ":" p Hcp). eauto.
    - change (":" +:+ rest) with (String ":" rest).
      rewrite (js_split_app ":" p rest Hcp). eauto. }
  destruct Hsnd as [more ->]. simpl nth_error.
  apply String.eqb_neq in Hu, Hp. rewrite Hu, Hp. reflexivity.
Qed.

(** X24: optional authentication lets a request pass anonymously only
    when it carries no Authorization header (or an empty one).  With a
    header, the request passes only with [req.user] set, under the
    Bearer or the Basic scheme; a header of any other scheme is answered
    with 401. *)
Theorem optional_auth_never_anonymous (env : auth_env) :
  optionalAuthMiddleware env None = Next None /\
  optionalAuthMiddleware env (Some "") = Next None /\
  (forall h user, h <> "" ->
     optionalAuthMiddleware env (Some h) = Next user ->
     exists u, user = Some u /\
       (String.prefix "Bearer " h = true \/ String.prefix "Basic " h = true)) /\
  (forall h, h <> "" -> String.prefix "Bearer " h = false ->
     String.prefix "Basic " h = false ->
     optionalAuthMiddleware env (Some h)
     = Responded
         "Invalid authorization format. Expected Basic or Bearer authentication"
         401).
Proof.
  split; [reflexivity|]. split; [reflexivity|]. split.
  - intros h user Hh. apply String.eqb_neq in Hh.
    unfold optionalAuthMiddleware, flexibleAuthMiddleware,
      bearerAuthMiddleware, basicAuthMiddleware.
    rewrite Hh. destruct (String.prefix "Bearer " h) eqn:Hb; cbv [negb].
    + destruct (nth_error (js_split " " h) 1) as [[|x t]|];
        try (intros H; discriminate H).
      destruct (jwt_verify env (String x t)) as [payload|[|] [|]];
        try (intros H; discriminate H).
      intros H. injection H as <-. eauto.
    + destruct (String.prefix "Basic " h) eqn:Hba; cbv [negb];
        [|intros H; discriminate H].
      destruct (nth_error (js_split " " h) 1) as [[|x t]|];
        try (intros H; discriminate H).
      destruct (nth_error _ 0) as [un|]; [|intros H; discriminate H].
      destruct (nth_error _ 1) as [pw|]; [|intros H; discriminate H].
      destruct (_ || _); [intros H; discriminate H|].
      intros H. injection H as <-. eauto.
  - intros h Hh Hb Hba. apply String.eqb_neq in Hh.
    unfold optionalAuthMiddleware, flexibleAuthMiddleware.
    now rewrite Hh, Hb, Hba.
Qed.

(** * The further properties on the sample data *)

Lemma create_then_find_witness :
  exists s',
    create env3 cid_new two_rows = (Return (new_row env3 cid_new), s') /\
    fst (findByEmail "cid@example.com" s') = Return (Some (new_row env3 cid_new)).
Proof.
  destruct (create_then_find env3 cid_new two_rows two_rows_inv)
    as (s' & E & _ & H & _).
  - intros x [<-|[<-|[]]]; split; vm_compute; reflexivity.
  - exists s'. split; [exact E|exact H].
Defined.




Lemma soft_deleted_rows_stay_witness :
  In bob (rows (snd (run mixed_calls two_rows))).
Proof.
  apply (soft_deleted_rows_stay mixed_calls two_rows bob 25 two_rows_inv).
  - right. left. reflexivity.
  - reflexivity.
Defined.

Lemma cache_mirrors_table_witness :
  NoDup (List.map kem (rows (snd (run mixed_calls two_rows)))).
Proof.
  exact (proj1 (proj2 (cache_mirrors_table mixed_calls two_rows two_rows_inv))).
Defined.




Lemma repeated_read_witness :
  let s1 := snd (findById "id-1" two_rows) in
  findById "id-1" s1 = (Return (Some ann), s1).
Proof.
  intros s1.
  apply (proj1 (repeated_read two_rows s1 "id-1" (Return (Some ann))
                  two_rows_inv)).
  vm_compute. reflexivity.
Defined.

Lemma cache_helpers_round_trip_witness :
  fst (getCacheUser "ann@example.com" KEmail (snd (setCacheUser ann two_rows)))
  = Return (Some ann).
Proof.
  exact (proj1 (proj2 (cache_helpers_round_trip ann two_rows eq_refl))).
Defined.


Lemma getUsers_page_shape_witness :
  exists resp,
    getUsers page_two twelve_rows = (Return resp, twelve_rows) /\
    has_next (pagination resp) = true /\ has_prev (pagination resp) = true.
Proof.
  destruct (getUsers_page_shape twelve_rows page_two)
    as (resp & E & _ & Hn & Hp & _).
  - simpl. lia.
  - simpl. lia.
  - exists resp. split; [exact E|]. split.
    + apply Hn. vm_compute. reflexivity.
    + apply Hp. simpl. lia.
Defined.

Lemma delete_handler_flag_witness :
  length (rows (snd (controller_deleteUser 40 "id-1" (QString "false") two_rows)))
  = length (rows two_rows).
Proof.
  destruct (delete_handler_flag 40 "id-1" (QString "false") two_rows
              two_rows_inv) as [H _].
  apply H. discriminate.
Defined.

Lemma seed_idempotent_witness :
  seed_main env9 ([ann; bob] ++ [admin_row env3])
  = PReturn ([ann; bob] ++ [admin_row env3], 3).
Proof.
  refine (proj1 (seed_idempotent env3 env9 [ann; bob] _ 3 _)).
  vm_compute. reflexivity.
Defined.

Lemma basic_auth_credentials_witness :
  basicAuthMiddleware basic_env (Some "Basic YW5uOnNlY3JldDpleHRyYQ==")
  = Next (Some (BasicUser "ann" "secret")).
Proof.
  apply (basic_auth_credentials basic_env "YW5uOnNlY3JldDpleHRyYQ==" "ann"
           "secret" ":extra").
  - discriminate.
  - reflexivity.
  - reflexivity.
  - discriminate.
  - discriminate.
  - reflexivity.
  - reflexivity.
  - right. exists "extra". reflexivity.
Defined.

(** * The cache across outages *)

Lemma play_calls cs s : play (List.map Call cs) s = run cs s.
Proof.
  revert s. induction cs as [|c cs IH]; intros s; simpl; [reflexivity|].
  destruct (exec c s) as [o s1]. now rewrite IH.
Qed.





(** * What the writes do to the cache *)
















(** * Pages of one listing *)

Lemma string_leb_trans (a b c : string) :
  String.leb a b = true -> String.leb b c = true -> String.leb a c = true.
Proof.
  unfold String.leb. revert b c.
  induction a as [|x a IH]; intros [|y b] [|z c]; simpl;
    try reflexivity; try (intros H; discriminate H);
    try (intros _ H; discriminate H).
  unfold Ascii.compare.
  destruct (N.compare_spec (N_of_ascii x) (N_of_ascii y)) as [E1|L1|G1],
           (N.compare_spec (N_of_ascii y) (N_of_ascii z)) as [E2|L2|G2],
           (N.compare_spec (N_of_ascii x) (N_of_ascii z)) as [E3|L3|G3];
    try reflexivity; try (intros H; discriminate H);
    try (intros _ H; discriminate H); try (exfalso; lia).
  apply IH.
Qed.

Lemma col_leb_trans c x y z :
  col_leb c x y = true -> col_leb c y z = true -> col_leb c x z = true.
Proof.
  destruct c; simpl; try apply string_leb_trans.
  - destruct (is_active x), (is_active y), (is_active z); simpl; auto.
  - rewrite !Z.leb_le. lia.
  - rewrite !Z.leb_le. lia.
  - destruct (deleted_at x), (deleted_at y), (deleted_at z); auto;
      try discriminate. rewrite !Z.leb_le. lia.
Qed.

#[global] Instance order_le_trans c o : Transitive (order_le c o).
Proof.
  intros x y z. unfold order_le. destruct o; simpl; intros H1 H2.
  - eapply col_leb_trans; eauto.
  - eapply col_leb_trans; eauto.
Qed.

(** X18: when no two of the matching rows tie on the sort key, the
    order of a listing is determined: every arrangement of the matching
    rows in the requested order is the same list.  Then, for a limit at
    least 1, the pages 1 to [n] of the listing, one after the other,
    are its first [n * limit] rows: no row is skipped and none comes
    twice; with [n * limit] at least the total they are all the
    matching rows.  (Rows that tie may come in another order in each
    query: the pages need not fit together then.) *)
Theorem pages_cover (s : state) (p : UserSearchParams) (n : nat) :
  let lim := default 10 (limit p) in
  let c := default Ccreated_at (sort_by p) in
  let o := default desc (sort_order p) in
  let matching := List.filter (where_input (q p)) (rows s) in
  let pages := concat (List.map
                 (fun k => page_rows
                    (fst (findMany (with_page p (Z.of_nat (S k))) s)))
                 (seq 0 n)) in
  1 <= lim ->
  (forall a b, In a matching -> In b matching ->
               order_le c o a b -> order_le c o b a -> a = b) ->
  exists listing,
    (forall l, l ≡ₚ matching -> StronglySorted (order_le c o) l ->
               l = listing) /\
    listing ≡ₚ matching /\ StronglySorted (order_le c o) listing /\
    pages = firstn (n * Z.to_nat lim) listing /\
    (prisma_count (q p) (rows s) <= Z.of_nat n * lim -> pages = listing).
Proof.
  intros lim c o matching pages Hlim Hties.
  set (sorted := selected (q p) c o (rows s)).
  assert (Hperm : sorted ≡ₚ matching) by apply selected_perm.
  assert (Hsorted : StronglySorted (order_le c o) sorted).
  { apply Sorted_StronglySorted; [apply _|apply selected_sorted]. }
  assert (H : pages = firstn (n * Z.to_nat lim) sorted).
  { unfold pages. clear pages. induction n as [|n IH]; [reflexivity|].
    rewrite seq_S, map_app, concat_app, IH. simpl. rewrite app_nil_r.
    rewrite page_rows_findMany by (fold lim; lia). fold lim c o sorted.
    replace (Z.to_nat ((Z.of_nat (S n) - 1) * lim)) with (n * Z.to_nat lim)%nat
      by nia.
    rewrite <- take_add_drop. f_equal. lia. }
  exists sorted. split; [|split; [exact Hperm|split; [exact Hsorted|split]]].
  - intros l Hl Hs. apply (StronglySorted_unique_strong (order_le c o)); auto.
    + intros x1 x2 H1 H2. apply Hties.
      * apply list_elem_of_In. now rewrite <- Hl.
      * apply list_elem_of_In. now rewrite <- Hperm.
    + now rewrite Hl, Hperm.
  - exact H.
  - intros Htot. rewrite H. apply firstn_all2.
    pose proof (selected_length (q p) c o (rows s)) as Hlen.
    fold sorted in Hlen. nia.
Qed.

Lemma pages_cover_witness :
  exists listing,
    listing ≡ₚ rows twelve_rows /\
    concat (List.map
              (fun k => page_rows
                 (fst (findMany (with_page page_two (Z.of_nat (S k)))
                         twelve_rows)))
              (seq 0 3))
    = listing.
Proof.
  destruct (pages_cover twelve_rows page_two 3)
    as (listing & _ & Hp & _ & _ & H).
  - simpl. lia.
  - intros a b Ha Hb H1 H2.
    assert (Hd : forall x y, In x (rows twelve_rows) -> In y (rows twelve_rows) ->
                   created_at x = created_at y -> x = y).
    { intros x y Hx Hy. simpl in Hx, Hy.
      repeat (destruct Hx as [<-|Hx]; [
        repeat (destruct Hy as [<-|Hy];
                [first [reflexivity|intros E; discriminate E]|]);
        destruct Hy|]).
      destruct Hx. }
    apply Hd; [exact Ha|exact Hb|].
    unfold order_le in H1, H2. simpl in H1, H2.
    apply Z.leb_le in H1, H2. lia.
  - exists listing. split; [exact Hp|]. apply H. vm_compute.
    intros H0. discriminate H0.
Defined.
